(** * riptimize: reconciliation and planning engine of the RI optimizer

    A shallow embedding of [riptimize.py].  The module is Python 2 code
    (its driver uses print statements), so [d.items()] and [d.values()]
    return a list that is a snapshot of the dict at the time of the call;
    mutating the dict inside a loop over such a snapshot is allowed and
    does not change the sequence being traversed.

    Modelling choices
    - a Python [dict] is a finite map [gmap]; its iteration order is the
      order of [map_to_list], a fixed but unspecified enumeration without
      repeated keys;
    - Python integers are unbounded: [Z];
    - a key [(instance_type, availability_zone)] is a pair of strings;
    - the reservation groups returned by the EC2 connection are mutable
      objects shared between the list [ri_groups] and the move
      descriptors: the list is the store and a reference to a group is
      its position in it;
    - [assert] raises: the functions that contain one return [option];
    - the EC2 call [modify_reserved_instances] is an effect: the
      connection is the log of the requests it has received;
    - [d[k] -= c] is [alter]: wherever the source does it the key is
      present (it was inserted just before, or comes from a snapshot of
      the same dict), so the [KeyError] of a missing key cannot occur. *)

From stdpp Require Import base gmap list strings fin_maps.
From Stdlib Require Import ZArith Lia Ascii.

Open Scope Z_scope.

(** ** Data model *)

(** [(instance_type, availability_zone)] *)
Abbreviation itype_and_az := (string * string)%type.

(** An inventory and a mismatch are both dicts from keys to integers. *)
Abbreviation inventory := (gmap (string * string) Z).

(** [d.items()] and [d.values()] of Python 2: snapshots. *)
Definition items {K} `{Countable K} {V} (d : gmap K V) : list (K * V) :=
  map_to_list d.

Definition values {K} `{Countable K} {V} (d : gmap K V) : list V :=
  (map_to_list d).*2.

(** ** aggregate_inventory (lines 171-179) *)

(** Body of the inner loop:
    [if k in i_inventory: i_inventory[k] += count else: i_inventory[k] = count] *)
Definition add_count (i_inventory : inventory) (entry : itype_and_az * Z)
  : inventory :=
  let '(k, count) := entry in
  match i_inventory !! k with
  | Some old => <[k := old + count]> i_inventory
  | None => <[k := count]> i_inventory
  end.

(** The inner loop over [account_inventory.items()]. *)
Definition aggregate_account (i_inventory account_inventory : inventory)
  : inventory :=
  foldl add_count i_inventory (items account_inventory).

(** The outer loop, over the sequence [inventory_by_account.values()]. *)
Definition aggregate_values (accounts : list inventory) : inventory :=
  foldl aggregate_account ∅ accounts.

Definition aggregate_inventory (inventory_by_account : gmap string inventory)
  : inventory :=
  aggregate_values (values inventory_by_account).

(** ** compute_ri_mistmatch (lines 214-222) *)

(** Loop body:
    [if k not in mismatch: mismatch[k] = 0]; [mismatch[k] -= count] *)
Definition subtract_count (mismatch : inventory) (entry : itype_and_az * Z)
  : inventory :=
  let '(k, count) := entry in
  let mismatch :=
    match mismatch !! k with
    | None => <[k := 0]> mismatch
    | Some _ => mismatch
    end in
  alter (λ diff, diff - count) k mismatch.

Definition compute_ri_mistmatch (ri_inventory i_inventory : inventory)
  : inventory :=
  let mismatch := foldl subtract_count ri_inventory (items i_inventory) in
  filter (λ kv, kv.2 ≠ 0) mismatch.

(** ** compute_ri_surplus (lines 225-233) *)

Definition add_diff (ri_surplus : gmap string Z) (entry : itype_and_az * Z)
  : gmap string Z :=
  let '((itype, az), diff) := entry in
  let ri_surplus :=
    match ri_surplus !! itype with
    | None => <[itype := 0]> ri_surplus
    | Some _ => ri_surplus
    end in
  alter (λ total, total + diff) itype ri_surplus.

Definition compute_ri_surplus (clean_mismatch : inventory) : gmap string Z :=
  foldl add_diff ∅ (items clean_mismatch).

(** ** eliminate_unsupported_zones (lines 269-273) *)

Definition eliminate_unsupported_zones
    (mismatch : inventory) (supported_ri_zones : list string)
  : inventory * inventory :=
  let clean_mismatch :=
    filter (λ kv, kv.1.2 ∈ supported_ri_zones) mismatch in
  let eliminated_i_inventory :=
    Z.opp <$> filter (λ kv, kv.1.2 ∉ supported_ri_zones) mismatch in
  (clean_mismatch, eliminated_i_inventory).

(** ** greedy_distribution (lines 236-266) *)

(** A modification action [(itype, source_az, dest_az, count)]. *)
Abbreviation action := (string * string * string * Z)%type.

(** First loop: separate the mismatch into recepients and donors. *)
Definition separate (acc : inventory * inventory) (entry : itype_and_az * Z)
  : inventory * inventory :=
  let '(recepients, donors) := acc in
  let '(k, diff) := entry in
  if decide (diff < 0) then (<[k := diff]> recepients, donors)
  else if decide (0 < diff) then (recepients, <[k := diff]> donors)
  else (recepients, donors).

(** The inner loop for one recepient.  [snapshot] is what is left of
    [donors.items()], taken before the loop started; [donors] is the dict
    itself, which the loop updates.  [donors[k] -= move_count] reads the
    dict, not the snapshot.  Leaving the recursion is the [break]. *)
Fixpoint compensate (recepient_itype recepient_az : string)
    (snapshot : list (itype_and_az * Z))
    (donors : inventory) (deficit : Z) (plan : list action)
  : inventory * list action :=
  match snapshot with
  | [] => (donors, plan)
  | ((donor_itype, donor_az), count) :: snapshot =>
    if decide (donor_itype = recepient_itype) then
      let move_count := Z.min (Z.abs deficit) count in
      let plan := plan ++ [(donor_itype, donor_az, recepient_az, move_count)] in
      let donors :=
        if decide (count = move_count)
        then delete (donor_itype, donor_az) donors
        else alter (λ available, available - move_count)
                   (donor_itype, donor_az) donors in
      let deficit := deficit + move_count in
      if decide (0 ≤ deficit) then (donors, plan)
      else compensate recepient_itype recepient_az snapshot donors deficit plan
    else compensate recepient_itype recepient_az snapshot donors deficit plan
  end.

(** Body of the outer loop: one recepient, a fresh snapshot of the donors. *)
Definition serve (acc : inventory * list action) (entry : itype_and_az * Z)
  : inventory * list action :=
  let '(donors, plan) := acc in
  let '((recepient_itype, recepient_az), deficit) := entry in
  compensate recepient_itype recepient_az (items donors) donors deficit plan.

Definition greedy_distribution (mismatch : inventory) : list action :=
  let '(recepients, donors) := foldl separate (∅, ∅) (items mismatch) in
  (foldl serve (donors, []) (items recepients)).2.

(** ** Reservation groups and the plan executor (lines 276-324) *)

(** A reserved-instances group as boto returns it: the fields the module
    reads.  [instance_count] is the field [execute_plan] decrements. *)
Record ReservedInstance := {
  id : string;
  instance_type : string;
  availability_zone : string;
  instance_count : Z
}.

Definition set_instance_count (g : ReservedInstance) (n : Z) : ReservedInstance :=
  {| id := id g; instance_type := instance_type g;
     availability_zone := availability_zone g; instance_count := n |}.

(** [boto.ec2.reservedinstance.ReservedInstancesConfiguration] *)
Record ReservedInstancesConfiguration := {
  cfg_availability_zone : string;
  cfg_instance_count : Z;
  cfg_platform : string
}.

(** A move descriptor [(donor_group, dest_az, move_count)]; the donor
    group is a reference into the store of groups. *)
Abbreviation move_descriptor := (nat * string * Z)%type.

(** The keyword arguments of one [conn.modify_reserved_instances] call. *)
Record request := {
  client_token : string;
  reserved_instance_ids : list string;
  target_configurations : list ReservedInstancesConfiguration
}.

(** Equality of these records is decidable, field by field. *)
#[global] Instance ReservedInstance_eq_dec : EqDecision ReservedInstance.
Proof. solve_decision. Defined.

#[global] Instance ReservedInstancesConfiguration_eq_dec :
  EqDecision ReservedInstancesConfiguration.
Proof. solve_decision. Defined.

#[global] Instance request_eq_dec : EqDecision request.
Proof. solve_decision. Defined.

Definition DRY_RUN : string := "rimod-<DRY-RUN>".

(** The filter of the list comprehension that selects the donor groups. *)
Definition is_donor (itype source_az : string) (g : ReservedInstance) : bool :=
  bool_decide (instance_type g = itype)
  && bool_decide (availability_zone g = source_az)
  && bool_decide (0 < instance_count g).

(** [donor_groups]: references to the selected groups, in list order. *)
Definition select_donor_groups (ri_groups : list ReservedInstance)
    (itype source_az : string) : list nat :=
  (filter (λ ig, is_donor itype source_az ig.2) (imap pair ri_groups)).*1.

(** The [while index < len(donor_groups) and count > 0] loop; the
    argument [donor_groups] is [donor_groups[index:]]. *)
Fixpoint consume (donor_groups : list nat) (dest_az : string) (count : Z)
    (ri_groups : list ReservedInstance)
    (modifications : gmap string (list move_descriptor))
  : list ReservedInstance * gmap string (list move_descriptor) :=
  match donor_groups with
  | [] => (ri_groups, modifications)
  | ref :: donor_groups =>
    if decide (0 < count) then
      match ri_groups !! ref with
      | None => (ri_groups, modifications)
      | Some donor_group =>
        let move_count := Z.min count (instance_count donor_group) in
        let modifications :=
          match modifications !! id donor_group with
          | None => <[id donor_group := []]> modifications
          | Some _ => modifications
          end in
        let modifications :=
          alter (λ l, l ++ [(ref, dest_az, move_count)])
                (id donor_group) modifications in
        let ri_groups :=
          <[ref := set_instance_count donor_group
                     (instance_count donor_group - move_count)]> ri_groups in
        consume donor_groups dest_az (count - move_count) ri_groups modifications
      end
    else (ri_groups, modifications)
  end.

(** Body of [for action in plan]. *)
Definition apply_action
    (acc : list ReservedInstance * gmap string (list move_descriptor))
    (a : action)
  : list ReservedInstance * gmap string (list move_descriptor) :=
  let '(ri_groups, modifications) := acc in
  let '(itype, source_az, dest_az, count) := a in
  consume (select_donor_groups ri_groups itype source_az) dest_az count
          ri_groups modifications.

(** The first loop of [execute_plan]: the groups as the loop leaves them
    and the dict [modifications]. *)
Definition batches (ri_groups : list ReservedInstance) (plan : list action)
  : list ReservedInstance * gmap string (list move_descriptor) :=
  foldl apply_action (ri_groups, ∅) plan.

(** The loop of [move_reserved_instances] with its [assert]; [current]
    is the loop variable [donor_group], which Python keeps after the
    loop. *)
Fixpoint configure (ri_groups : list ReservedInstance) (donor_group_id : string)
    (move_descriptor_list : list move_descriptor)
    (configs : list ReservedInstancesConfiguration)
    (current : option ReservedInstance)
  : option (list ReservedInstancesConfiguration * option ReservedInstance) :=
  match move_descriptor_list with
  | [] => Some (configs, current)
  | (ref, dest_az, move_count) :: move_descriptor_list =>
    donor_group ← ri_groups !! ref;
    if decide (id donor_group = donor_group_id) then
      configure ri_groups donor_group_id move_descriptor_list
        (configs ++ [{| cfg_availability_zone := dest_az;
                        cfg_instance_count := move_count;
                        cfg_platform := "EC2-VPC" |}])
        (Some donor_group)
    else None
  end.

(** Lines 310-318: the target configurations of one batch, the remainder
    configuration included.  [None] is a failed [assert]. *)
Definition build_target_configurations (ri_groups : list ReservedInstance)
    (move_descriptor_list : list move_descriptor)
  : option (string * list ReservedInstancesConfiguration) :=
  first ← head move_descriptor_list;
  first_group ← ri_groups !! first.1.1;
  let donor_group_id := id first_group in
  '(configs, current) ← configure ri_groups donor_group_id
                          move_descriptor_list [] None;
  donor_group ← current;
  let configs :=
    if decide (0 < instance_count donor_group)
    then configs ++ [{| cfg_availability_zone := availability_zone donor_group;
                        cfg_instance_count := instance_count donor_group;
                        cfg_platform := "EC2-VPC" |}]
    else configs in
  Some (donor_group_id, configs).

Section Executor.

(** The EC2 service: the identifier it answers to a request, and the
    clock reading [str(time.time())] at the n-th request. *)
Variable modify_reserved_instances : request → string.
Variable time_time : nat → string.

(** The connection is the log of the requests sent, oldest first. *)
Definition move_reserved_instances (ri_groups : list ReservedInstance)
    (conn : list request) (move_descriptor_list : list move_descriptor)
    (optimize : bool) : option (string * list request) :=
  '(donor_group_id, configs) ←
     build_target_configurations ri_groups move_descriptor_list;
  if optimize then
    let r := {| client_token := time_time (length conn);
                reserved_instance_ids := [donor_group_id];
                target_configurations := configs |} in
    Some (modify_reserved_instances r, conn ++ [r])
  else Some (DRY_RUN, conn).

(** Body of [for modification in modifications.values()]. *)
Definition submit (ri_groups : list ReservedInstance) (optimize : bool)
    (acc : option (list string * list request))
    (modification : list move_descriptor)
  : option (list string * list request) :=
  '(modification_ids, conn) ← acc;
  '(modification_id, conn) ←
     move_reserved_instances ri_groups conn modification optimize;
  Some (modification_ids ++ [modification_id], conn).

(** [execute_plan]; [ri_groups] is the answer of
    [conn.get_all_reserved_instances].  The result is the list of
    modification ids and the requests the connection received. *)
Definition execute_plan (ri_groups : list ReservedInstance)
    (plan : list action) (optimize : bool)
  : option (list string * list request) :=
  let '(ri_groups, modifications) := batches ri_groups plan in
  foldl (submit ri_groups optimize) (Some ([], [])) (values modifications).

(** The request that [move_reserved_instances] sends in live mode for
    the id and the configurations of a batch, as the [n]-th request. *)
Definition request_of (n : nat)
    (built : string * list ReservedInstancesConfiguration) : request :=
  {| client_token := time_time n;
     reserved_instance_ids := [built.1];
     target_configurations := built.2 |}.

(** The requests of a run, the first of them sent with [start]
    requests already in the log. *)
Fixpoint sent (start : nat)
    (built : list (string * list ReservedInstancesConfiguration))
  : list request :=
  match built with
  | [] => []
  | b :: built => request_of start b :: sent (S start) built
  end.

End Executor.

(** ** riptimize (lines 101-138)

    The inventories come from the collaborators
    [get_i_inventory_by_account] and [get_ri_inventory], which only talk
    to EC2: their answers are the arguments here, with the groups that
    [execute_plan] fetches.  Publishing the metrics to CloudWatch (step
    9) has no part in the result and is left out. *)

Record riptimize_result := {
  i_inventory : inventory;
  i_inventory_by_account : gmap string inventory;
  ri_inventory : inventory;
  supported_ri_zones : list string;
  processing_modifications : list string;
  clean_mismatch : inventory;
  recommendations : inventory * gmap string Z;
  plan : list action;
  modification_ids : list string
}.

Section Riptimize.

Variable modify_reserved_instances : request → string.
Variable time_time : nat → string.

Definition riptimize (i_inventory_by_account : gmap string inventory)
    (ri_inventory : inventory) (supported_ri_zones : list string)
    (processing_modifications : list string)
    (ri_groups : list ReservedInstance) (optimize : bool)
  : option (riptimize_result * list request) :=
  let i_inventory := aggregate_inventory i_inventory_by_account in
  let modifications_inflight :=
    negb (bool_decide (length processing_modifications = 0%nat)) in
  let mismatch := compute_ri_mistmatch ri_inventory i_inventory in
  let '(clean_mismatch, eliminated_i_inventory) :=
    eliminate_unsupported_zones mismatch supported_ri_zones in
  let ri_surplus := compute_ri_surplus clean_mismatch in
  let ri_imbalance := filter (λ kv, kv.2 ≠ 0) ri_surplus in
  let recommendations := (eliminated_i_inventory, ri_imbalance) in
  let plan := greedy_distribution clean_mismatch in
  '(modification_ids, conn) ←
    (if decide (0 < length plan)%nat then
       let perform_optimization := optimize && negb modifications_inflight in
       execute_plan modify_reserved_instances time_time
                    ri_groups plan perform_optimization
     else Some ([], []));
  Some ({| i_inventory := i_inventory;
           i_inventory_by_account := i_inventory_by_account;
           ri_inventory := ri_inventory;
           supported_ri_zones := supported_ri_zones;
           processing_modifications := processing_modifications;
           clean_mismatch := clean_mismatch;
           recommendations := recommendations;
           plan := plan;
           modification_ids := modification_ids |}, conn).

End Riptimize.

(** ** The collaborators that fetch the inventories

    [get_account_i_inventory] (lines 153-168),
    [get_i_inventory_by_account] (lines 145-150) and [get_ri_inventory]
    (lines 182-211) ask EC2 and fold the answers into dicts.  The
    answers of EC2 are arguments; the folding is the code. *)

(** A running instance as boto returns it: the fields the module reads. *)
Module Instance.
Record t := { instance_type : string; placement : string }.
End Instance.

(** Body of the loop of [get_account_i_inventory]:
    [if k in account_inventory: account_inventory[k] += 1 else: ... = 1]. *)
Definition count_instance (account_inventory : inventory)
    (instance : Instance.t) : inventory :=
  add_count account_inventory
    ((Instance.instance_type instance, Instance.placement instance), 1).

(** [running] is the answer of [conn.get_only_instances]. *)
Definition get_account_i_inventory (running : list Instance.t) : inventory :=
  foldl count_instance ∅ running.

(** [all_accounts] maps an account id to its credentials, a pair of
    strings; [get_only_instances] is what EC2 answers for them. *)
Definition get_i_inventory_by_account
    (get_only_instances : string * string → list Instance.t)
    (all_accounts : gmap string (string * string))
  : gmap string inventory :=
  foldl (λ inventory_by_account (entry : string * (string * string)),
           <[entry.1 := get_account_i_inventory (get_only_instances entry.2)]>
             inventory_by_account)
        ∅ (items all_accounts).

(** The loop over the zones [(name, state)] of [get_ri_inventory]; the
    [raise] is [None]. *)
Fixpoint available_zones (zones : list (string * string))
    (supported_ri_zones : list string) : option (list string) :=
  match zones with
  | [] => Some supported_ri_zones
  | (name, state) :: zones =>
    if decide (state ≠ "available") then None
    else available_zones zones (supported_ri_zones ++ [name])
  end.

(** Body of the loop over the reservation groups:
    [if k in ri_inventory: ri_inventory[k] += g.instance_count
     else: ri_inventory[k] = g.instance_count]. *)
Definition count_group (ri_inventory : inventory) (ri_group : ReservedInstance)
  : inventory :=
  add_count ri_inventory
    ((instance_type ri_group, availability_zone ri_group),
     instance_count ri_group).

(** [zones], [processing_modifications] and [ri_groups] are the answers
    of [conn.get_all_zones], [conn.describe_reserved_instances_modifications]
    and [conn.get_all_reserved_instances]. *)
Definition get_ri_inventory (zones : list (string * string))
    (processing_modifications : list string)
    (ri_groups : list ReservedInstance)
  : option (inventory * list string * list string) :=
  supported_ri_zones ← available_zones zones [];
  Some (foldl count_group ∅ ri_groups, supported_ri_zones,
        processing_modifications).

(** [riptimize] with its collaborators (steps 1 to 8): both calls of
    [conn.get_all_reserved_instances], the one of [get_ri_inventory] and
    the one of [execute_plan], get the same answer [ri_groups]. *)
Definition riptimize_run
    (modify_reserved_instances : request → string) (time_time : nat → string)
    (get_only_instances : string * string → list Instance.t)
    (all_accounts : gmap string (string * string))
    (zones : list (string * string)) (processing : list string)
    (ri_groups : list ReservedInstance) (optimize : bool)
  : option (riptimize_result * list request) :=
  let i_inventory_by_account :=
    get_i_inventory_by_account get_only_instances all_accounts in
  '(ri_inventory, supported_ri_zones, processing_modifications) ←
     get_ri_inventory zones processing ri_groups;
  riptimize modify_reserved_instances time_time i_inventory_by_account
            ri_inventory supported_ri_zones processing_modifications
            ri_groups optimize.

(** ** The report file name of the driver (example_main.py, lines 119-120)

    [str.replace] with patterns of one character maps the characters of
    the string. *)
Fixpoint replace_char (old new : ascii) (s : string) : string :=
  match s with
  | EmptyString => EmptyString
  | String c s =>
    String (if decide (c = old) then new else c) (replace_char old new s)
  end.

(** [stamp] is [str(time_now)]. *)
Definition report_file_name (region stamp : string) : string :=
  let filename_safe_timestamp :=
    replace_char ":"%char "-"%char (replace_char " "%char "_"%char stamp) in
  "riptimize_report_" +:+ region +:+ "_" +:+ filename_safe_timestamp
    +:+ ".csv".

(** * Vocabulary of the properties *)

(** [d.get(k, 0)] *)
Definition get (d : inventory) (k : itype_and_az) : Z := default 0 (d !! k).

(** Key-wise sum of two inventories. *)
Definition merge_counts (a b : inventory) : inventory :=
  union_with (λ x y, Some (x + y)) a b.

(** Units that a plan takes out of a donor key [(itype, source_az)]. *)
Definition moved_from (plan : list action) (k : itype_and_az) : Z :=
  foldr (λ (a : action) total,
           if decide ((a.1.1.1, a.1.1.2) = k) then a.2 + total else total)
        0 plan.

(** Units that a plan delivers into a recipient key [(itype, dest_az)]. *)
Definition moved_into (plan : list action) (k : itype_and_az) : Z :=
  foldr (λ (a : action) total,
           if decide ((a.1.1.1, a.1.2) = k) then a.2 + total else total)
        0 plan.

(** The surplus of a key is its positive diff, the deficit of a key the
    absolute value of its negative diff; both are 0 for any other key. *)
Definition surplus (mismatch : inventory) (k : itype_and_az) : Z :=
  Z.max 0 (get mismatch k).

Definition deficit (mismatch : inventory) (k : itype_and_az) : Z :=
  Z.max 0 (- get mismatch k).

(** Every remaining donor has something left to give. *)
Definition all_positive (donors : inventory) : Prop :=
  ∀ k c, donors !! k = Some c → 0 < c.

(** What the plan and the donors look like together: the state of the
    two loops of the planner. *)
Record planner_step (recepient : itype_and_az) (budget : Z)
    (donors : inventory) (plan : list action)
    (donors' : inventory) (plan' : list action) : Prop := {
  step_conserves : ∀ k,
    moved_from plan' k + get donors' k = moved_from plan k + get donors k;
  step_positive : all_positive donors';
  step_counts :
    Forall (λ a : action, 0 < a.2) plan → Forall (λ a : action, 0 < a.2) plan';
  step_others : ∀ k, k ≠ recepient → moved_into plan' k = moved_into plan k;
  step_bounded :
    moved_into plan' recepient ≤ moved_into plan recepient + budget
}.

(** Units that the descriptors of a list take out of the group [ref]. *)
Definition batch_moves (ref : nat) (batch : list move_descriptor) : Z :=
  foldr (λ (d : move_descriptor) total,
           if decide (d.1.1 = ref) then d.2 + total else total)
        0 batch.

(** Units that all the batches together take out of the group [ref]. *)
Definition moved_out (modifications : gmap string (list move_descriptor))
    (ref : nat) : Z :=
  batch_moves ref (concat (values modifications)).

(** Sum of the instance counts of a list of target configurations. *)
Definition config_total (configs : list ReservedInstancesConfiguration) : Z :=
  foldr (λ c total, cfg_instance_count c + total) 0 configs.

(** Total remaining capacity of the groups that a list of references
    points to. *)
Definition remaining_capacity (ri_groups : list ReservedInstance)
    (refs : list nat) : Z :=
  foldr (λ ref total,
           match ri_groups !! ref with
           | Some g => instance_count g + total
           | None => total
           end)
        0 refs.

(** One round of the while loop: the dict after the descriptor has been
    appended to the batch of the donor group. *)
Definition record_move (modifications : gmap string (list move_descriptor))
    (key : string) (d : move_descriptor)
  : gmap string (list move_descriptor) :=
  alter (λ l, l ++ [d]) key
        match modifications !! key with
        | None => <[key := []]> modifications
        | Some _ => modifications
        end.

(** The relation that the first loop of [execute_plan] maintains between
    the groups as fetched, the groups as decremented so far and the
    batches formed so far. *)
Record batched (ri_groups groups : list ReservedInstance)
    (modifications : gmap string (list move_descriptor)) : Prop := {
  batched_length : length groups = length ri_groups;
  batched_same : ∀ i g0 g,
    ri_groups !! i = Some g0 → groups !! i = Some g →
    id g = id g0 ∧ instance_type g = instance_type g0
    ∧ availability_zone g = availability_zone g0;
  batched_capacity : ∀ i g0 g,
    ri_groups !! i = Some g0 → groups !! i = Some g →
    instance_count g0
    = instance_count g
      + batch_moves i (default [] (modifications !! id g0));
  batched_remaining : ∀ i g0 g,
    ri_groups !! i = Some g0 → groups !! i = Some g →
    instance_count g = instance_count g0 ∨ 0 ≤ instance_count g;
  batched_refs : ∀ k batch ref dest mc,
    modifications !! k = Some batch → (ref, dest, mc) ∈ batch →
    0 < mc ∧ ∃ g0, ri_groups !! ref = Some g0 ∧ id g0 = k;
  batched_nonempty : ∀ k, modifications !! k ≠ Some []
}.

(** The groups that are selected for an action hold something. *)
Definition all_available (groups : list ReservedInstance) (refs : list nat)
  : Prop :=
  ∀ ref, ref ∈ refs → ∃ g, groups !! ref = Some g ∧ 0 < instance_count g.

(** The configuration that a move descriptor asks for, and the one that
    keeps what is left of a group where it is. *)
Definition move_configuration (d : move_descriptor)
  : ReservedInstancesConfiguration :=
  {| cfg_availability_zone := d.1.2; cfg_instance_count := d.2;
     cfg_platform := "EC2-VPC" |}.

Definition remainder_configuration (g : ReservedInstance)
  : list ReservedInstancesConfiguration :=
  if decide (0 < instance_count g)
  then [{| cfg_availability_zone := availability_zone g;
           cfg_instance_count := instance_count g;
           cfg_platform := "EC2-VPC" |}]
  else [].

(** All the descriptors of a batch refer to groups with the id [key]. *)
Definition batch_of (groups : list ReservedInstance) (key : string)
    (batch : list move_descriptor) : Prop :=
  ∀ d : move_descriptor, d ∈ batch →
    ∃ g, groups !! d.1.1 = Some g ∧ id g = key.

(** A donor group is touched by a plan when the first loop of
    [execute_plan] takes something out of it. *)
Definition touched (ri_groups : list ReservedInstance) (plan : list action)
    (key : string) : Prop :=
  ∃ i g g', ri_groups !! i = Some g
            ∧ (batches ri_groups plan).1 !! i = Some g'
            ∧ id g = key ∧ instance_count g' ≠ instance_count g.

(** The target configurations of a request hand out exactly the
    capacity that the group with the id [key] had when it was fetched. *)
Definition conserves (ri_groups : list ReservedInstance) (key : string)
    (configs : list ReservedInstancesConfiguration) : Prop :=
  ∃ i g, ri_groups !! i = Some g ∧ id g = key
         ∧ config_total configs = instance_count g.

(** What [move_reserved_instances] builds for the batch of a key. *)
Definition built_for (groups : list ReservedInstance)
    (kb : string * list move_descriptor)
    (b : string * list ReservedInstancesConfiguration) : Prop :=
  b.1 = kb.1 ∧ build_target_configurations groups kb.2 = Some b.

(** Units that all the descriptors of all the batches move. *)
Definition all_moves (modifications : gmap string (list move_descriptor)) : Z :=
  foldr (λ (d : move_descriptor) total, d.2 + total) 0
        (concat (values modifications)).

(** Sum of the counts of the entries of a sequence that have the key [k]. *)
Definition entries_total {K} `{EqDecision K} (k : K) (l : list (K * Z)) : Z :=
  foldr (λ (e : K * Z) total, if decide (e.1 = k) then e.2 + total else total)
        0 l.

(** Sum of a list of integers. *)
Definition total (l : list Z) : Z := foldr Z.add 0 l.

(** Sum of the entries of a sequence, and of a dict, whose key
    satisfies [P]. *)
Definition entries_sum (P : itype_and_az → Prop) `{!∀ k, Decision (P k)}
    (l : list (itype_and_az * Z)) : Z :=
  foldr (λ (e : itype_and_az * Z) total,
           if decide (P e.1) then e.2 + total else total)
        0 l.

Definition key_sum (P : itype_and_az → Prop) `{!∀ k, Decision (P k)}
    (d : inventory) : Z :=
  entries_sum P (items d).

(** The entry that a reservation group adds to the inventory. *)
Definition group_entry (g : ReservedInstance) : itype_and_az * Z :=
  ((instance_type g, availability_zone g), instance_count g).

(** Capacity that the groups hold for a pair of type and zone: what the
    donor groups selected for it have. *)
Definition key_capacity (groups : list ReservedInstance) (k : itype_and_az)
  : Z :=
  remaining_capacity groups (select_donor_groups groups k.1 k.2).

(** Units that a plan asks to move. *)
Definition plan_total (plan : list action) : Z :=
  foldr (λ (a : action) total, a.2 + total) 0 plan.

(** The group at a position holds something. *)
Definition holds_at (groups : list ReservedInstance) (ref : nat) : bool :=
  match groups !! ref with
  | Some g => bool_decide (0 < instance_count g)
  | None => false
  end.

(** Sum of the instance counts of the donor groups of a list. *)
Definition donors_total (itype source_az : string)
    (groups : list ReservedInstance) : Z :=
  foldr (λ g total,
           if is_donor itype source_az g then instance_count g + total
           else total)
        0 groups.

(** [c in s] for a character [c]. *)
Fixpoint contains (c : ascii) (s : string) : bool :=
  match s with
  | EmptyString => false
  | String c' s => bool_decide (c' = c) || contains c s
  end.

(** * Properties *)

Ltac by_compute := apply (bool_decide_unpack _); vm_compute; exact I.

(** ** The zone filter *)

Lemma eliminated_lookup (mismatch : inventory) (zones : list string) k :
  (eliminate_unsupported_zones mismatch zones).2 !! k
  = if decide (k.2 ∈ zones) then None else Z.opp <$> mismatch !! k.
Proof.
  unfold eliminate_unsupported_zones; simpl.
  rewrite lookup_fmap.
  destruct (decide (k.2 ∈ zones)) as [Hin|Hout].
  - rewrite (proj2 (map_lookup_filter_None _ _ _)); [done|].
    right. intros d _ Hn. by apply Hn.
  - destruct (mismatch !! k) as [d|] eqn:E.
    + by rewrite (map_lookup_filter_Some_2 _ _ _ _ E Hout).
    + rewrite (proj2 (map_lookup_filter_None _ _ _)); [done|]. by left.
Qed.

Lemma clean_lookup (mismatch : inventory) (zones : list string) k :
  (eliminate_unsupported_zones mismatch zones).1 !! k
  = if decide (k.2 ∈ zones) then mismatch !! k else None.
Proof.
  unfold eliminate_unsupported_zones; simpl.
  destruct (decide (k.2 ∈ zones)) as [Hin|Hout].
  - destruct (mismatch !! k) as [d|] eqn:E.
    + by rewrite (map_lookup_filter_Some_2 _ _ _ _ E Hin).
    + rewrite (proj2 (map_lookup_filter_None _ _ _)); [done|]. by left.
  - rewrite (proj2 (map_lookup_filter_None _ _ _)); [done|].
    right. intros d _ Hn. by apply Hout.
Qed.

(** C6: the partition is a lossless split.  The clean mismatch together
    with the eliminated inventory, its sign inverted back, is the
    mismatch itself; the two outputs share no key; and their keys are
    together exactly the keys of the mismatch. *)
Theorem eliminate_unsupported_zones_lossless
    (mismatch : inventory) (zones : list string) :
  let '(clean, eliminated) := eliminate_unsupported_zones mismatch zones in
  clean ∪ (Z.opp <$> eliminated) = mismatch
  ∧ clean ##ₘ eliminated
  ∧ dom clean ∪ dom eliminated = dom mismatch
  ∧ dom clean ∩ dom eliminated = ∅.
Proof.
  pose proof (clean_lookup mismatch zones) as Hc.
  pose proof (eliminated_lookup mismatch zones) as He.
  destruct (eliminate_unsupported_zones mismatch zones) as [clean eliminated].
  simpl in Hc, He.
  assert (Hdisj : clean ##ₘ eliminated).
  { apply map_disjoint_spec. intros k x y Hx Hy.
    rewrite Hc in Hx. rewrite He in Hy. case_decide; done. }
  split; [|split; [done|split]].
  - apply map_eq. intros k.
    destruct (decide (k.2 ∈ zones)) as [Hin|Hout].
    + rewrite lookup_union_l.
      * rewrite Hc. by case_decide.
      * rewrite lookup_fmap, He. by case_decide.
    + rewrite lookup_union_r.
      * rewrite lookup_fmap, He. case_decide; [done|].
        destruct (mismatch !! k) as [d|]; simpl; [|done].
        f_equal. lia.
      * rewrite Hc. by case_decide.
  - apply set_eq. intros k. rewrite elem_of_union, !elem_of_dom.
    rewrite Hc, He. case_decide.
    + split; [intros [?|[? ?]]; done | auto].
    + rewrite fmap_is_Some.
      split; [intros [[? ?]|?]; done | auto].
  - apply disjoint_intersection_L. by apply map_disjoint_dom.
Qed.

(** The eliminated inventory holds, for every mismatch entry in a zone
    outside the supported list, that entry with its sign inverted, and
    nothing else. *)
Lemma eliminated_entry (mismatch : inventory) (zones : list string) k v :
  (eliminate_unsupported_zones mismatch zones).2 !! k = Some v
  ↔ (k.2 ∉ zones) ∧ mismatch !! k = Some (- v).
Proof.
  rewrite eliminated_lookup. case_decide.
  - split; [done | intros [? ?]; done].
  - destruct (mismatch !! k) as [d|]; simpl.
    + split.
      * intros [= <-]. split; [done|]. f_equal. lia.
      * intros [_ [= ->]]. f_equal. lia.
    + split; [done | intros [? ?]; done].
Qed.

(** C8, as stated, fails: a surplus in a zone outside the supported list
    is eliminated as a negative count. *)
Lemma eliminated_entry_not_always_positive :
  ¬ (∀ (mismatch : inventory) (zones : list string) k v,
       (eliminate_unsupported_zones mismatch zones).2 !! k = Some v →
       mismatch !! k = Some (- v) ∧ 0 < v).
Proof.
  intros H.
  destruct (H {[ ("m4.large", "us-east-1f") := 5 ]} ["us-east-1a"]
              ("m4.large", "us-east-1f") (-5)) as [_ Hpos].
  - by_compute.
  - lia.
Qed.

(** C8, amended: every entry of the eliminated inventory is the
    corresponding mismatch entry, of a zone outside the supported list,
    with its sign inverted; it is a positive count exactly when that
    mismatch entry is a deficit. *)
Theorem eliminated_entry_inverted (mismatch : inventory) (zones : list string)
    k v :
  (eliminate_unsupported_zones mismatch zones).2 !! k = Some v →
  (k.2 ∉ zones) ∧ mismatch !! k = Some (- v)
  ∧ (0 < v ↔ ∃ diff, mismatch !! k = Some diff ∧ diff < 0).
Proof.
  intros H. apply eliminated_entry in H as [Hz Hm].
  split; [done|]. split; [done|]. split.
  - intros Hv. exists (- v). split; [done | lia].
  - intros (diff & Hd & Hneg). rewrite Hm in Hd. injection Hd as <-. lia.
Qed.

Lemma eliminated_entry_inverted_witness :
  (("us-east-1f" : string) ∉ ["us-east-1a"])
  ∧ ({[ ("m4.large", "us-east-1f") := -3 ]} : inventory)
      !! ("m4.large", "us-east-1f") = Some (- 3)
  ∧ (0 < 3 ↔ ∃ diff,
        ({[ ("m4.large", "us-east-1f") := -3 ]} : inventory)
          !! ("m4.large", "us-east-1f") = Some diff ∧ diff < 0).
Proof.
  apply (eliminated_entry_inverted
           {[ ("m4.large", "us-east-1f") := -3 ]} ["us-east-1a"]
           ("m4.large", "us-east-1f") 3).
  by_compute.
Defined.

(** ** The mismatch calculator *)

(** The subtraction loop over a sequence of entries without repeated
    keys: a key of the sequence ends at the old value, or 0, minus its
    count, and every other key keeps its entry. *)
Lemma foldl_subtract_count (l : list (itype_and_az * Z)) :
  NoDup l.*1 →
  ∀ (mismatch : inventory) k,
    foldl subtract_count mismatch l !! k
    = match (list_to_map l : inventory) !! k with
      | Some count => Some (get mismatch k - count)
      | None => mismatch !! k
      end.
Proof.
  induction l as [|[k' c] l IH]; intros Hnd mismatch k.
  - done.
  - rewrite fmap_cons in Hnd. apply NoDup_cons in Hnd as [Hk' Hnd].
    change (foldl subtract_count mismatch ((k', c) :: l))
      with (foldl subtract_count (subtract_count mismatch (k', c)) l).
    change (list_to_map ((k', c) :: l) : inventory)
      with (<[k' := c]> (list_to_map l : inventory)).
    rewrite (IH Hnd). unfold get.
    assert (Hfresh : (list_to_map l : inventory) !! k' = None)
      by by apply not_elem_of_list_to_map_1.
    destruct (decide (k' = k)) as [->|Hne].
    + rewrite Hfresh, lookup_insert_eq. unfold subtract_count.
      rewrite lookup_alter_eq.
      destruct (mismatch !! k) as [d|] eqn:E; simpl.
      * by rewrite E.
      * by rewrite lookup_insert_eq.
    + rewrite lookup_insert_ne by done.
      assert (Hsame : subtract_count mismatch (k', c) !! k = mismatch !! k).
      { unfold subtract_count. rewrite lookup_alter_ne by done.
        destruct (mismatch !! k'); [done|]. by rewrite lookup_insert_ne. }
      by rewrite Hsame.
Qed.

Lemma compute_ri_mistmatch_lookup (ri_inventory i_inventory : inventory) k :
  compute_ri_mistmatch ri_inventory i_inventory !! k
  = if decide (get ri_inventory k - get i_inventory k = 0) then None
    else Some (get ri_inventory k - get i_inventory k).
Proof.
  unfold compute_ri_mistmatch, items.
  rewrite map_lookup_filter.
  rewrite foldl_subtract_count by apply NoDup_fst_map_to_list.
  rewrite list_to_map_to_list. unfold get.
  destruct (i_inventory !! k) as [c|] eqn:Ei; simpl.
  - case_guard; simpl in *; case_decide; done.
  - destruct (ri_inventory !! k) as [r|] eqn:Er; simpl.
    + rewrite Z.sub_0_r. case_guard; simpl in *; case_decide; done.
    + done.
Qed.

(** C3: the mismatch maps every key to [reserved.get(key, 0) -
    demand.get(key, 0)] unless that difference is 0, in which case the
    key has no entry; so every key of either input whose difference is
    not 0 is present, a key of the demand alone appears with the negated
    demand count, and no entry is 0. *)
Theorem compute_ri_mistmatch_spec (reserved demand : inventory) :
  let mismatch := compute_ri_mistmatch reserved demand in
  (∀ k, mismatch !! k
        = if decide (get reserved k - get demand k = 0) then None
          else Some (get reserved k - get demand k))
  ∧ (∀ k count, reserved !! k = None → demand !! k = Some count →
        0 < count → mismatch !! k = Some (- count))
  ∧ (∀ k, mismatch !! k ≠ Some 0)
  ∧ dom mismatch ⊆ dom reserved ∪ dom demand.
Proof.
  simpl. split; [|split; [|split]].
  - apply compute_ri_mistmatch_lookup.
  - intros k count Hr Hd Hpos. rewrite compute_ri_mistmatch_lookup.
    unfold get. rewrite Hr, Hd. simpl. case_decide; [lia | done].
  - intros k. rewrite compute_ri_mistmatch_lookup.
    case_decide; [done|]. intros [= ?]. done.
  - intros k. rewrite elem_of_union, !elem_of_dom.
    rewrite compute_ri_mistmatch_lookup. unfold get.
    destruct (reserved !! k), (demand !! k); simpl; eauto.
Qed.

Lemma compute_ri_mistmatch_spec_witness :
  compute_ri_mistmatch {[ ("m4.large", "us-east-1a") := 10 ]}
      {[ ("m4.large", "us-east-1b") := 6 ]}
    !! ("m4.large", "us-east-1b") = Some (Z.opp 6).
Proof.
  apply (proj1 (proj2 (compute_ri_mistmatch_spec
                         {[ ("m4.large", "us-east-1a") := 10 ]}
                         {[ ("m4.large", "us-east-1b") := 6 ]}))
               ("m4.large", "us-east-1b") 6).
  - by_compute.
  - by_compute.
  - lia.
Defined.

(** In the pipeline the eliminated inventory is a demand: when every
    reservation lies in a supported zone and no demand count is
    negative, all its entries are positive. *)
Lemma eliminated_demand_positive (reserved demand : inventory)
    (zones : list string) k v :
  (∀ k c, reserved !! k = Some c → k.2 ∈ zones) →
  (∀ k c, demand !! k = Some c → 0 ≤ c) →
  (eliminate_unsupported_zones (compute_ri_mistmatch reserved demand) zones).2
    !! k = Some v →
  0 < v.
Proof.
  intros Hres Hdem Hel. apply eliminated_entry in Hel as [Hzone Hm].
  rewrite compute_ri_mistmatch_lookup in Hm. unfold get in Hm.
  destruct (reserved !! k) as [r|] eqn:Er.
  { exfalso. apply Hzone. by eapply Hres. }
  destruct (demand !! k) as [c|] eqn:Ed; simpl in Hm.
  - specialize (Hdem k c Ed). case_decide; [done|].
    injection Hm as Hm. lia.
  - done.
Qed.

(** ** Aggregation of the per-account inventories *)

Lemma merge_counts_lookup (a b : inventory) k :
  merge_counts a b !! k
  = match a !! k, b !! k with
    | Some x, Some y => Some (x + y)
    | Some x, None => Some x
    | None, o => o
    end.
Proof.
  unfold merge_counts. rewrite lookup_union_with.
  by destruct (a !! k), (b !! k).
Qed.

Lemma foldl_add_count (l : list (itype_and_az * Z)) :
  NoDup l.*1 →
  ∀ acc : inventory, foldl add_count acc l = merge_counts acc (list_to_map l).
Proof.
  induction l as [|[k c] l IH]; intros Hnd acc.
  - apply map_eq. intros k. rewrite merge_counts_lookup.
    change (list_to_map [] : inventory) with (∅ : inventory).
    rewrite lookup_empty. simpl. by destruct (acc !! k).
  - rewrite fmap_cons in Hnd. apply NoDup_cons in Hnd as [Hk Hnd].
    change (foldl add_count acc ((k, c) :: l))
      with (foldl add_count (add_count acc (k, c)) l).
    change (list_to_map ((k, c) :: l) : inventory)
      with (<[k := c]> (list_to_map l : inventory)).
    rewrite (IH Hnd).
    assert (Hfresh : (list_to_map l : inventory) !! k = None)
      by by apply not_elem_of_list_to_map_1.
    apply map_eq. intros j. rewrite !merge_counts_lookup.
    unfold add_count.
    destruct (decide (k = j)) as [<-|Hne].
    + rewrite Hfresh, lookup_insert_eq.
      destruct (acc !! k) as [old|] eqn:E; by rewrite lookup_insert_eq.
    + rewrite (lookup_insert_ne (list_to_map l)) by done.
      destruct (acc !! k) as [old|] eqn:E; by rewrite lookup_insert_ne.
Qed.

Lemma aggregate_account_merge (acc account_inventory : inventory) :
  aggregate_account acc account_inventory = merge_counts acc account_inventory.
Proof.
  unfold aggregate_account, items.
  rewrite foldl_add_count by apply NoDup_fst_map_to_list.
  by rewrite list_to_map_to_list.
Qed.

Lemma aggregate_account_swap (acc a b : inventory) :
  aggregate_account (aggregate_account acc a) b
  = aggregate_account (aggregate_account acc b) a.
Proof.
  rewrite !aggregate_account_merge. apply map_eq. intros k.
  rewrite !merge_counts_lookup.
  destruct (acc !! k), (a !! k), (b !! k); f_equal; lia.
Qed.

(** The result does not depend on the order of the accounts. *)
Lemma aggregate_permutation (l1 l2 : list inventory) :
  l1 ≡ₚ l2 → ∀ acc, foldl aggregate_account acc l1 = foldl aggregate_account acc l2.
Proof.
  induction 1 as [|x l1 l2 _ IH|x y l|l1 l2 l3 _ IH1 _ IH2]; intros acc; simpl.
  - done.
  - apply IH.
  - by rewrite aggregate_account_swap.
  - by rewrite IH1.
Qed.

(** C9: aggregation is independent of the order of the accounts, be the
    order that of the sequence of inventories or that of the account ids
    they are stored under, and an empty per-account map gives an empty
    inventory. *)
Theorem aggregate_inventory_order_independent :
  (∀ A B : inventory, aggregate_values [A; B] = aggregate_values [B; A])
  ∧ (∀ (a b : string) (A B : inventory), a ≠ b →
       aggregate_inventory (<[a := A]> {[ b := B ]})
       = aggregate_inventory (<[a := B]> {[ b := A ]}))
  ∧ aggregate_inventory ∅ = ∅.
Proof.
  split; [|split].
  - intros A B. unfold aggregate_values. simpl. apply aggregate_account_swap.
  - intros a b A B Hne. unfold aggregate_inventory, aggregate_values, values.
    apply aggregate_permutation.
    assert (Hperm : ∀ X Y : inventory,
               (map_to_list (<[a := X]> ({[ b := Y ]} : gmap string inventory))).*2
               ≡ₚ [X; Y]).
    { intros X Y. rewrite map_to_list_insert by by rewrite lookup_singleton_ne.
      by rewrite map_to_list_singleton. }
    rewrite !Hperm. apply perm_swap.
  - unfold aggregate_inventory, aggregate_values, values.
    by rewrite map_to_list_empty.
Qed.

Lemma aggregate_inventory_order_independent_witness :
  aggregate_inventory
    (<["111111111111" := {[ ("m4.large", "us-east-1a") := 2 ]}]>
       {[ "222222222222" := {[ ("m4.large", "us-east-1a") := 3 ]} ]})
  = aggregate_inventory
      (<["111111111111" := {[ ("m4.large", "us-east-1a") := 3 ]}]>
         {[ "222222222222" := {[ ("m4.large", "us-east-1a") := 2 ]} ]}).
Proof.
  apply (proj1 (proj2 aggregate_inventory_order_independent)
               "111111111111" "222222222222").
  by_compute.
Defined.

(** ** The scenario of one reservation pool and two demand zones *)

(** C7: with 10 m4.large reserved in us-east-1a and a demand of 4 in
    us-east-1a and 6 in us-east-1b, the mismatch is +6 in us-east-1a and
    -6 in us-east-1b, and with both zones supported the greedy plan is
    the single action that moves 6 from us-east-1a to us-east-1b. *)
Theorem scenario_one_move :
  let reserved : inventory := {[ ("m4.large", "us-east-1a") := 10 ]} in
  let demand : inventory :=
    <[ ("m4.large", "us-east-1b") := 6 ]> {[ ("m4.large", "us-east-1a") := 4 ]} in
  let mismatch := compute_ri_mistmatch reserved demand in
  mismatch
  = <[ ("m4.large", "us-east-1b") := -6 ]> {[ ("m4.large", "us-east-1a") := 6 ]}
  ∧ greedy_distribution
      (eliminate_unsupported_zones mismatch ["us-east-1a"; "us-east-1b"]).1
    = [("m4.large", "us-east-1a", "us-east-1b", 6)].
Proof. simpl. split; by_compute. Qed.

(** ** The greedy planner *)

Lemma moved_from_snoc plan (a : action) k :
  moved_from (plan ++ [a]) k
  = moved_from plan k + (if decide ((a.1.1.1, a.1.1.2) = k) then a.2 else 0).
Proof.
  unfold moved_from. induction plan as [|b plan IH]; simpl.
  - case_decide; lia.
  - rewrite IH. repeat case_decide; lia.
Qed.

Lemma moved_into_snoc plan (a : action) k :
  moved_into (plan ++ [a]) k
  = moved_into plan k + (if decide ((a.1.1.1, a.1.2) = k) then a.2 else 0).
Proof.
  unfold moved_into. induction plan as [|b plan IH]; simpl.
  - case_decide; lia.
  - rewrite IH. repeat case_decide; lia.
Qed.

Lemma get_nonneg donors k : all_positive donors → 0 ≤ get donors k.
Proof.
  intros Hpos. unfold get. destruct (donors !! k) as [c|] eqn:E; simpl; [|done].
  specialize (Hpos k c E). lia.
Qed.

(** The separation loop: recepients are the negative entries, donors the
    positive ones. *)
Lemma foldl_separate (l : list (itype_and_az * Z)) :
  NoDup l.*1 →
  ∀ (recepients donors : inventory) k,
    (foldl separate (recepients, donors) l).1 !! k
    = match (list_to_map l : inventory) !! k with
      | Some diff => if decide (diff < 0) then Some diff else recepients !! k
      | None => recepients !! k
      end
    ∧ (foldl separate (recepients, donors) l).2 !! k
      = match (list_to_map l : inventory) !! k with
        | Some diff => if decide (0 < diff) then Some diff else donors !! k
        | None => donors !! k
        end.
Proof.
  induction l as [|[k' d] l IH]; intros Hnd recepients donors k.
  - done.
  - rewrite fmap_cons in Hnd. apply NoDup_cons in Hnd as [Hk' Hnd].
    change (list_to_map ((k', d) :: l) : inventory)
      with (<[k' := d]> (list_to_map l : inventory)).
    assert (Hfresh : (list_to_map l : inventory) !! k' = None)
      by by apply not_elem_of_list_to_map_1.
    change (foldl separate (recepients, donors) ((k', d) :: l))
      with (foldl separate (separate (recepients, donors) (k', d)) l).
    unfold separate at 2 4.
    destruct (decide (k' = k)) as [->|Hne].
    + rewrite lookup_insert_eq.
      repeat case_decide; try lia;
        destruct (IH Hnd recepients donors k) as [IH1 IH2];
        destruct (IH Hnd (<[k := d]> recepients) donors k) as [IH3 IH4];
        destruct (IH Hnd recepients (<[k := d]> donors) k) as [IH5 IH6];
        rewrite ?IH1, ?IH2, ?IH3, ?IH4, ?IH5, ?IH6, Hfresh, ?lookup_insert_eq;
        done.
    + rewrite lookup_insert_ne by done.
      repeat case_decide;
        destruct (IH Hnd recepients donors k) as [IH1 IH2];
        destruct (IH Hnd (<[k' := d]> recepients) donors k) as [IH3 IH4];
        destruct (IH Hnd recepients (<[k' := d]> donors) k) as [IH5 IH6];
        rewrite ?IH1, ?IH2, ?IH3, ?IH4, ?IH5, ?IH6, ?lookup_insert_ne by done;
        done.
Qed.

(** The inner loop gives one recepient at most its deficit, and takes
    from every donor exactly what it removes from the dict. *)
Lemma compensate_step recepient_itype recepient_az
    (snapshot : list (itype_and_az * Z)) :
  ∀ (donors : inventory) (remaining : Z) (plan : list action),
    NoDup snapshot.*1 →
    (∀ k c, (k, c) ∈ snapshot → donors !! k = Some c) →
    all_positive donors →
    remaining < 0 →
    planner_step (recepient_itype, recepient_az) (- remaining) donors plan
      (compensate recepient_itype recepient_az snapshot donors remaining plan).1
      (compensate recepient_itype recepient_az snapshot donors remaining plan).2.
Proof.
  induction snapshot as [|[[donor_itype donor_az] count] snapshot IH];
    intros donors remaining plan Hnd Hsnap Hpos Hneg.
  - simpl. split; auto; lia.
  - rewrite fmap_cons in Hnd. apply NoDup_cons in Hnd as [Hfresh Hnd].
    assert (Hcount : donors !! (donor_itype, donor_az) = Some count)
      by (apply Hsnap; left).
    assert (Hcpos : 0 < count) by by apply (Hpos _ _ Hcount).
    assert (Hrest : ∀ k c, (k, c) ∈ snapshot → k ≠ (donor_itype, donor_az)).
    { intros k c Hin ->. apply Hfresh. apply list_elem_of_fmap.
      by exists ((donor_itype, donor_az), c). }
    simpl. destruct (decide (donor_itype = recepient_itype)) as [->|Hother].
    + set (move_count := Z.min (Z.abs remaining) count).
      set (donors1 := if decide (count = move_count)
                      then delete (recepient_itype, donor_az) donors
                      else alter (λ available, available - move_count)
                                 (recepient_itype, donor_az) donors).
      set (plan1 := plan ++ [(recepient_itype, donor_az, recepient_az, move_count)]).
      assert (Hmove : 0 < move_count ∧ move_count ≤ count
                      ∧ move_count ≤ - remaining) by (unfold move_count; lia).
      assert (Hget1 : ∀ k, get donors1 k
                = if decide ((recepient_itype, donor_az) = k)
                  then get donors k - move_count else get donors k).
      { intros k. unfold donors1, get.
        destruct (decide (count = move_count)) as [Heq|Hlt];
          destruct (decide ((recepient_itype, donor_az) = k)) as [<-|Hk].
        - rewrite lookup_delete_eq, Hcount. simpl. lia.
        - by rewrite lookup_delete_ne.
        - rewrite lookup_alter_eq, Hcount. done.
        - by rewrite lookup_alter_ne. }
      assert (Hpos1 : all_positive donors1).
      { intros k c. unfold donors1.
        destruct (decide (count = move_count)) as [Heq|Hlt];
          destruct (decide ((recepient_itype, donor_az) = k)) as [<-|Hk].
        - by rewrite lookup_delete_eq.
        - rewrite lookup_delete_ne by done. apply Hpos.
        - rewrite lookup_alter_eq, Hcount. simpl. intros [= <-]. lia.
        - rewrite lookup_alter_ne by done. apply Hpos. }
      assert (Hsnap1 : ∀ k c, (k, c) ∈ snapshot → donors1 !! k = Some c).
      { intros k c Hin. pose proof (Hrest k c Hin) as Hk.
        unfold donors1. case_decide.
        - rewrite lookup_delete_ne by done. apply Hsnap. by right.
        - rewrite lookup_alter_ne by done. apply Hsnap. by right. }
      assert (Hfrom1 : ∀ k, moved_from plan1 k + get donors1 k
                            = moved_from plan k + get donors k).
      { intros k. unfold plan1. rewrite moved_from_snoc, Hget1. simpl.
        case_decide; lia. }
      assert (Hinto1 : ∀ k, moved_into plan1 k
                = moved_into plan k
                  + (if decide ((recepient_itype, recepient_az) = k)
                     then move_count else 0)).
      { intros k. unfold plan1. by rewrite moved_into_snoc. }
      assert (Hcounts1 : Forall (λ a : action, 0 < a.2) plan →
                         Forall (λ a : action, 0 < a.2) plan1).
      { intros Hall. unfold plan1. apply Forall_app. split; [done|].
        apply Forall_singleton. simpl. lia. }
      destruct (decide (0 ≤ remaining + move_count)) as [Hdone|Hmore].
      * simpl. split; auto.
        -- intros k Hk. rewrite Hinto1. case_decide; [congruence | lia].
        -- rewrite Hinto1. case_decide; [lia | congruence].
      * destruct (IH donors1 (remaining + move_count) plan1 Hnd Hsnap1 Hpos1)
          as [C P F O B]; [lia|].
        split.
        -- intros k. rewrite C. apply Hfrom1.
        -- done.
        -- auto.
        -- intros k Hk. rewrite (O k Hk), Hinto1. case_decide; [congruence | lia].
        -- etrans; [apply B|]. rewrite Hinto1. case_decide; [lia | congruence].
    + apply IH; auto. intros k c Hin. apply Hsnap. by right.
Qed.

(** The outer loop over recepients with distinct keys and negative
    diffs: every recepient is served once, within its deficit. *)
Lemma foldl_serve (recepients : list (itype_and_az * Z)) :
  NoDup recepients.*1 →
  (∀ k d, (k, d) ∈ recepients → d < 0) →
  ∀ (donors : inventory) (plan : list action),
    all_positive donors →
    let result := foldl serve (donors, plan) recepients in
    (∀ k, moved_from result.2 k + get result.1 k
          = moved_from plan k + get donors k)
    ∧ all_positive result.1
    ∧ (Forall (λ a : action, 0 < a.2) plan →
       Forall (λ a : action, 0 < a.2) result.2)
    ∧ (∀ k, moved_into result.2 k
            ≤ moved_into plan k
              + match (list_to_map recepients : inventory) !! k with
                | Some d => - d
                | None => 0
                end).
Proof.
  induction recepients as [|[[itype az] d] recepients IH];
    intros Hnd Hneg donors plan Hpos.
  - simpl. split; [done|]. split; [done|]. split; [done|].
    intros k. change (list_to_map [] : inventory) with (∅ : inventory).
    rewrite lookup_empty. lia.
  - rewrite fmap_cons in Hnd. apply NoDup_cons in Hnd as [Hfresh Hnd].
    assert (Hd : d < 0) by (apply (Hneg (itype, az)); left).
    assert (Hnone : (list_to_map recepients : inventory) !! (itype, az) = None)
      by by apply not_elem_of_list_to_map_1.
    change (foldl serve (donors, plan) (((itype, az), d) :: recepients))
      with (foldl serve (serve (donors, plan) ((itype, az), d)) recepients).
    change (list_to_map (((itype, az), d) :: recepients) : inventory)
      with (<[(itype, az) := d]> (list_to_map recepients : inventory)).
    change (serve (donors, plan) ((itype, az), d))
      with (compensate itype az (items donors) donors d plan).
    destruct (compensate_step itype az (items donors) donors d plan)
      as [C P F O B].
    { apply NoDup_fst_map_to_list. }
    { intros k c Hin. by apply elem_of_map_to_list. }
    { done. }
    { done. }
    destruct (compensate itype az (items donors) donors d plan)
      as [donors1 plan1] eqn:E.
    simpl in C, P, F, O, B.
    destruct (IH Hnd (λ k d' Hin, Hneg k d' (list_elem_of_further _ _ _ Hin))
                 donors1 plan1 P) as (C' & P' & F' & B').
    simpl. split; [|split; [|split]].
    + intros k. rewrite C'. apply C.
    + done.
    + auto.
    + intros k. etrans; [apply B'|].
      destruct (decide ((itype, az) = k)) as [<-|Hk].
      * rewrite Hnone, lookup_insert_eq. lia.
      * rewrite lookup_insert_ne by done. rewrite (O k) by done. lia.
Qed.

(** C1: in the plan of the greedy planner the counts drawn from a donor
    key add up to at most its surplus, the counts delivered into a
    recipient key add up to at most its deficit, and every count is
    positive, so that neither sum hides an excess behind a negative
    count. *)
Theorem greedy_distribution_within_bounds (mismatch : inventory) :
  let plan := greedy_distribution mismatch in
  (∀ k, moved_from plan k ≤ surplus mismatch k)
  ∧ (∀ k, moved_into plan k ≤ deficit mismatch k)
  ∧ Forall (λ a : action, 0 < a.2) plan.
Proof.
  unfold greedy_distribution, items.
  pose proof (foldl_separate (map_to_list mismatch)
                (NoDup_fst_map_to_list mismatch) ∅ ∅) as Hsep.
  rewrite list_to_map_to_list in Hsep.
  destruct (foldl separate (∅, ∅) (map_to_list mismatch))
    as [recepients donors].
  simpl in Hsep.
  assert (Hrec : ∀ k, recepients !! k
                      = match mismatch !! k with
                        | Some diff => if decide (diff < 0) then Some diff else None
                        | None => None
                        end).
  { intros k. destruct (Hsep k) as [-> _].
    rewrite lookup_empty. by destruct (mismatch !! k). }
  assert (Hdon : ∀ k, donors !! k
                      = match mismatch !! k with
                        | Some diff => if decide (0 < diff) then Some diff else None
                        | None => None
                        end).
  { intros k. destruct (Hsep k) as [_ ->].
    rewrite lookup_empty. by destruct (mismatch !! k). }
  destruct (foldl_serve (map_to_list recepients)
              (NoDup_fst_map_to_list recepients)) with (donors := donors)
              (plan := @nil action) as (C & P & F & B).
  { intros k d Hin. apply elem_of_map_to_list in Hin. rewrite Hrec in Hin.
    destruct (mismatch !! k); [|done]. case_decide; [|done]. by injection Hin as <-. }
  { intros k c. rewrite Hdon. destruct (mismatch !! k); [|done].
    case_decide; [|done]. by intros [= <-]. }
  rewrite list_to_map_to_list in B.
  simpl. split; [|split].
  - intros k. specialize (C k). pose proof (get_nonneg _ k P) as Hge.
    simpl in C. unfold surplus.
    assert (get donors k ≤ Z.max 0 (get mismatch k)); [|lia].
    unfold get. rewrite Hdon. destruct (mismatch !! k); simpl; [|lia].
    case_decide; simpl; lia.
  - intros k. specialize (B k). simpl in B. unfold deficit.
    assert (match recepients !! k with Some d => - d | None => 0 end
            ≤ Z.max 0 (- get mismatch k)); [|lia].
    unfold get. rewrite Hrec. destruct (mismatch !! k); simpl; [|lia].
    case_decide; simpl; lia.
  - by apply F.
Qed.

(** ** The plan executor *)

Lemma batch_moves_app ref l1 l2 :
  batch_moves ref (l1 ++ l2) = batch_moves ref l1 + batch_moves ref l2.
Proof.
  unfold batch_moves. induction l1 as [|d l1 IH]; simpl; [lia|].
  rewrite IH. case_decide; lia.
Qed.

Lemma batch_moves_perm ref l1 l2 :
  l1 ≡ₚ l2 → batch_moves ref l1 = batch_moves ref l2.
Proof.
  unfold batch_moves.
  induction 1 as [|x l1 l2 _ IH|x y l|l1 l2 l3 _ IH1 _ IH2]; simpl.
  - done.
  - by rewrite IH.
  - repeat case_decide; lia.
  - by rewrite IH1.
Qed.

Lemma batch_moves_nonneg ref batch :
  Forall (λ d : move_descriptor, 0 < d.2) batch → 0 ≤ batch_moves ref batch.
Proof.
  unfold batch_moves. induction 1 as [|d l Hd _ IH]; simpl; [lia|].
  case_decide; lia.
Qed.

Lemma batch_moves_elem ref dest mc batch :
  Forall (λ d : move_descriptor, 0 < d.2) batch →
  (ref, dest, mc) ∈ batch → mc ≤ batch_moves ref batch.
Proof.
  intros Hall Hin. apply list_elem_of_split in Hin as (l1 & l2 & ->).
  rewrite batch_moves_app.
  apply Forall_app in Hall as [H1 H2].
  apply Forall_cons in H2 as [_ H2].
  pose proof (batch_moves_nonneg ref _ H1).
  pose proof (batch_moves_nonneg ref _ H2).
  change (batch_moves ref ((ref, dest, mc) :: l2))
    with (if decide (ref = ref) then mc + batch_moves ref l2
          else batch_moves ref l2).
  case_decide; [lia | done].
Qed.

Lemma batch_moves_none ref batch :
  (∀ d : move_descriptor, d ∈ batch → d.1.1 ≠ ref) → batch_moves ref batch = 0.
Proof.
  unfold batch_moves. induction batch as [|d l IH]; intros H; simpl; [done|].
  rewrite decide_False by (apply H; left).
  apply IH. intros d' Hd'. apply H. by right.
Qed.

(** When all the descriptors of a list refer to [ref], what they take
    out of it is the sum of their counts. *)
Lemma batch_moves_all ref batch :
  (∀ d : move_descriptor, d ∈ batch → d.1.1 = ref) →
  batch_moves ref batch = foldr (λ (d : move_descriptor) total, d.2 + total) 0 batch.
Proof.
  unfold batch_moves. induction batch as [|d l IH]; intros H; simpl; [done|].
  rewrite decide_True by (apply H; left).
  rewrite IH; [done|]. intros d' Hd'. apply H. by right.
Qed.

(** The descriptors of a group live in the batch of its id: when no
    other batch refers to the group, that batch tells what left it. *)
Lemma moved_out_single (modifications : gmap string (list move_descriptor))
    (ref : nat) (key : string) :
  (∀ k batch, modifications !! k = Some batch → k ≠ key →
              batch_moves ref batch = 0) →
  moved_out modifications ref
  = batch_moves ref (default [] (modifications !! key)).
Proof.
  unfold moved_out, values.
  induction modifications as [|k batch m Hk IH] using map_ind; intros H.
  - by rewrite map_to_list_empty, lookup_empty.
  - rewrite (batch_moves_perm ref _ (batch ++ concat (map_to_list m).*2)).
    2:{ rewrite map_to_list_insert by done. done. }
    rewrite batch_moves_app, IH.
    2:{ intros k' b' Hb' Hne. apply (H k' b'); [|done].
        rewrite lookup_insert_ne; [done|]. intros ->. congruence. }
    destruct (decide (k = key)) as [->|Hne].
    + rewrite lookup_insert_eq, Hk. simpl. lia.
    + rewrite lookup_insert_ne by done.
      rewrite (H k batch); [lia | by rewrite lookup_insert_eq | done].
Qed.

Lemma record_move_lookup modifications key d k :
  record_move modifications key d !! k
  = if decide (key = k) then Some (default [] (modifications !! k) ++ [d])
    else modifications !! k.
Proof.
  unfold record_move. case_decide as Hk.
  - subst k. rewrite lookup_alter_eq.
    destruct (modifications !! key) as [l|] eqn:E; simpl.
    + by rewrite E.
    + by rewrite lookup_insert_eq.
  - rewrite lookup_alter_ne by done.
    destruct (modifications !! key); [done|]. by rewrite lookup_insert_ne.
Qed.

Lemma batched_init ri_groups : batched ri_groups ri_groups ∅.
Proof.
  split.
  - done.
  - intros i g0 g H0 H. by simplify_eq.
  - intros i g0 g H0 H. simplify_eq. rewrite lookup_empty. simpl.
    unfold batch_moves. simpl. lia.
  - intros i g0 g H0 H. simplify_eq. by left.
  - intros k batch ref dest mc H. by rewrite lookup_empty in H.
  - intros k. by rewrite lookup_empty.
Qed.

(** One move out of a group with something left keeps the relation. *)
Lemma batched_move ri_groups groups modifications ref donor_group dest_az mc :
  batched ri_groups groups modifications →
  groups !! ref = Some donor_group →
  0 < mc ≤ instance_count donor_group →
  batched ri_groups
    (<[ref := set_instance_count donor_group (instance_count donor_group - mc)]>
       groups)
    (record_move modifications (id donor_group) (ref, dest_az, mc)).
Proof.
  intros [L S C R F N] Hdg Hmc.
  assert (Hlt : (ref < length groups)%nat) by by eapply lookup_lt_Some.
  destruct (lookup_lt_is_Some_2 ri_groups ref) as [dg0 Hdg0]; [lia|].
  destruct (S ref dg0 donor_group Hdg0 Hdg) as (Sid & Sty & Saz).
  split.
  - by rewrite length_insert.
  - intros i g0 g H0 H. destruct (decide (i = ref)) as [->|Hne].
    + rewrite list_lookup_insert_eq in H by done.
      assert (g0 = dg0) as -> by congruence. injection H as <-. simpl. auto.
    + rewrite list_lookup_insert_ne in H by done. eauto.
  - intros i g0 g H0 H. rewrite record_move_lookup.
    destruct (decide (i = ref)) as [->|Hne].
    + rewrite list_lookup_insert_eq in H by done.
      assert (g0 = dg0) as -> by congruence. injection H as <-. simpl.
      rewrite decide_True by done. simpl. rewrite batch_moves_app.
      rewrite (C ref dg0 donor_group) by done.
      unfold batch_moves at 3. simpl. rewrite decide_True by done. lia.
    + rewrite list_lookup_insert_ne in H by done.
      rewrite (C i g0 g) by done. case_decide as Hid; [|done].
      simpl. rewrite batch_moves_app. unfold batch_moves at 3. simpl.
      rewrite decide_False by done. rewrite <- Hid. lia.
  - intros i g0 g H0 H. destruct (decide (i = ref)) as [->|Hne].
    + rewrite list_lookup_insert_eq in H by done. injection H as <-. simpl.
      right. lia.
    + rewrite list_lookup_insert_ne in H by done. eauto.
  - intros k batch ref' dest mc' Hb Hin. rewrite record_move_lookup in Hb.
    case_decide as Hid.
    + simplify_eq. apply elem_of_app in Hin as [Hin|Hin].
      * destruct (modifications !! id donor_group) as [l|] eqn:E;
          simpl in Hin; [by eapply F | by apply elem_of_nil in Hin].
      * apply list_elem_of_singleton in Hin. simplify_eq.
        split; [lia|]. by exists dg0.
    + by eapply F.
  - intros k. rewrite record_move_lookup. case_decide.
    + intros [= Heq]. by apply app_nil in Heq as [_ ?].
    + apply N.
Qed.

Lemma consume_cons ref refs dest_az count groups modifications :
  consume (ref :: refs) dest_az count groups modifications
  = if decide (0 < count) then
      match groups !! ref with
      | None => (groups, modifications)
      | Some donor_group =>
        let mc := Z.min count (instance_count donor_group) in
        consume refs dest_az (count - mc)
          (<[ref := set_instance_count donor_group
                      (instance_count donor_group - mc)]> groups)
          (record_move modifications (id donor_group) (ref, dest_az, mc))
      end
    else (groups, modifications).
Proof. done. Qed.

Lemma all_available_tail groups ref refs g' :
  NoDup (ref :: refs) → all_available groups (ref :: refs) →
  all_available (<[ref := g']> groups) refs.
Proof.
  intros Hnd Hav r Hr. apply NoDup_cons in Hnd as [Hfresh _].
  rewrite list_lookup_insert_ne by (intros ->; done).
  apply Hav. by right.
Qed.

(** The while loop leaves alone the groups that it was not given. *)
Lemma consume_others refs : ∀ dest_az count groups modifications i,
  i ∉ refs →
  (consume refs dest_az count groups modifications).1 !! i = groups !! i.
Proof.
  induction refs as [|ref refs IH]; intros dest_az count groups mods i Hi.
  - done.
  - rewrite consume_cons. apply not_elem_of_cons in Hi as [Hne Hi].
    case_decide; [|done]. destruct (groups !! ref) as [dg|] eqn:E; [|done].
    simpl. rewrite IH by done. by rewrite list_lookup_insert_ne.
Qed.

(** The while loop keeps the relation between groups and batches. *)
Lemma consume_batched ri_groups refs :
  ∀ dest_az count groups modifications,
    NoDup refs → all_available groups refs →
    batched ri_groups groups modifications →
    batched ri_groups
      (consume refs dest_az count groups modifications).1
      (consume refs dest_az count groups modifications).2.
Proof.
  induction refs as [|ref refs IH]; intros dest_az count groups mods Hnd Hav Hb.
  - done.
  - rewrite consume_cons. case_decide as Hcount; [|done].
    destruct (Hav ref) as (dg & Hdg & Hpos); [left|].
    rewrite Hdg. simpl. apply IH.
    + by apply NoDup_cons in Hnd as [_ ?].
    + by eapply all_available_tail.
    + apply batched_move; [done | done | lia].
Qed.

Lemma remaining_capacity_ext groups1 groups2 refs :
  (∀ ref, ref ∈ refs → groups1 !! ref = groups2 !! ref) →
  remaining_capacity groups1 refs = remaining_capacity groups2 refs.
Proof.
  unfold remaining_capacity. induction refs as [|ref refs IH]; intros H; simpl.
  - done.
  - rewrite (H ref) by left. rewrite IH; [done|].
    intros r Hr. apply H. by right.
Qed.

Lemma remaining_capacity_nonneg groups refs :
  all_available groups refs → 0 ≤ remaining_capacity groups refs.
Proof.
  unfold remaining_capacity. induction refs as [|ref refs IH]; intros H; simpl.
  - done.
  - destruct (H ref) as (g & -> & Hpos); [left|].
    assert (0 ≤ foldr
              (λ ref total,
                 match groups !! ref with
                 | Some g => instance_count g + total
                 | None => total
                 end) 0 refs); [|lia].
    apply IH. intros r Hr. apply H. by right.
Qed.

(** The while loop moves the count of the action or, when the selected
    groups hold less, all that they hold: the rest of the count is
    dropped. *)
Lemma consume_capacity refs : ∀ dest_az count groups modifications,
  NoDup refs → all_available groups refs →
  remaining_capacity (consume refs dest_az count groups modifications).1 refs
  = remaining_capacity groups refs
    - Z.min (Z.max 0 count) (remaining_capacity groups refs).
Proof.
  induction refs as [|ref refs IH]; intros dest_az count groups mods Hnd Hav.
  - unfold remaining_capacity. simpl. lia.
  - pose proof (remaining_capacity_nonneg _ _ Hav) as Hge.
    rewrite consume_cons. case_decide as Hcount; [|cbn [fst]; lia].
    destruct (Hav ref) as (dg & Hdg & Hpos); [left|].
    pose proof Hnd as Hnd'. apply NoDup_cons in Hnd' as [Hfresh Hnd'].
    rewrite Hdg. simpl.
    set (mc := Z.min count (instance_count dg)).
    set (groups1 := <[ref := set_instance_count dg (instance_count dg - mc)]>
                      groups).
    set (mods1 := record_move mods (id dg) (ref, dest_az, mc)).
    assert (Hav1 : all_available groups1 refs) by by eapply all_available_tail.
    pose proof (IH dest_az (count - mc) groups1 mods1 Hnd' Hav1) as IH1.
    pose proof (remaining_capacity_nonneg _ _ Hav1) as Hge1.
    assert (Hrest : remaining_capacity groups1 refs
                    = remaining_capacity groups refs).
    { apply remaining_capacity_ext. intros r Hr. unfold groups1.
      rewrite list_lookup_insert_ne; [done|]. by intros ->. }
    assert (Hlt : (ref < length groups)%nat) by by eapply lookup_lt_Some.
    assert (Href : (consume refs dest_az (count - mc) groups1 mods1).1 !! ref
                   = Some (set_instance_count dg (instance_count dg - mc))).
    { rewrite consume_others by done. unfold groups1.
      by rewrite list_lookup_insert_eq. }
    change (remaining_capacity ?gs (ref :: refs))
      with (match gs !! ref with
            | Some g => instance_count g + remaining_capacity gs refs
            | None => remaining_capacity gs refs
            end).
    rewrite Href, Hdg, IH1, Hrest. simpl.
    rewrite Hrest in Hge1. unfold mc. lia.
Qed.

(** The selection of the donor groups of an action. *)
Lemma select_donor_groups_elem groups itype source_az ref :
  ref ∈ select_donor_groups groups itype source_az
  ↔ ∃ g, groups !! ref = Some g ∧ is_donor itype source_az g = true.
Proof.
  unfold select_donor_groups. rewrite list_elem_of_fmap. split.
  - intros ([i g] & -> & Hin). apply list_elem_of_filter in Hin as [Hd Hin].
    apply elem_of_lookup_imap in Hin as (j & g' & [= -> ->] & Hg).
    simpl in *. exists g'. split; [done|]. by destruct (is_donor _ _ _).
  - intros (g & Hg & Hd). exists (ref, g). split; [done|].
    apply list_elem_of_filter. split.
    + simpl. by rewrite Hd.
    + apply elem_of_lookup_imap. by exists ref, g.
Qed.

Lemma select_donor_groups_NoDup groups itype source_az :
  NoDup (select_donor_groups groups itype source_az).
Proof.
  unfold select_donor_groups. apply NoDup_fmap_fst.
  - intros i g1 g2 H1 H2.
    apply list_elem_of_filter in H1 as [_ H1].
    apply list_elem_of_filter in H2 as [_ H2].
    apply elem_of_lookup_imap in H1 as (j1 & g1' & [= -> ->] & Hg1).
    apply elem_of_lookup_imap in H2 as (j2 & g2' & [= -> ->] & Hg2).
    congruence.
  - apply NoDup_filter. apply NoDup_alt. intros i j x Hi Hj.
    rewrite list_lookup_imap in Hi, Hj.
    destruct (groups !! i), (groups !! j); simpl in *; congruence.
Qed.

Lemma select_donor_groups_available groups itype source_az :
  all_available groups (select_donor_groups groups itype source_az).
Proof.
  intros ref Href. apply select_donor_groups_elem in Href as (g & Hg & Hd).
  exists g. split; [done|]. unfold is_donor in Hd.
  apply andb_prop in Hd as [_ Hd]. by apply bool_decide_eq_true in Hd.
Qed.

(** The first loop of [execute_plan] maintains the relation. *)
Lemma apply_action_batched ri_groups groups modifications (a : action) :
  batched ri_groups groups modifications →
  batched ri_groups (apply_action (groups, modifications) a).1
                    (apply_action (groups, modifications) a).2.
Proof.
  intros Hb. destruct a as [[[itype source_az] dest_az] count]. simpl.
  apply consume_batched; [| |done].
  - apply select_donor_groups_NoDup.
  - apply select_donor_groups_available.
Qed.

Lemma batches_batched ri_groups plan :
  batched ri_groups (batches ri_groups plan).1 (batches ri_groups plan).2.
Proof.
  unfold batches.
  assert (H : ∀ groups modifications,
             batched ri_groups groups modifications →
             batched ri_groups
               (foldl apply_action (groups, modifications) plan).1
               (foldl apply_action (groups, modifications) plan).2).
  { induction plan as [|a plan IH]; intros groups mods Hb; [done|].
    change (foldl apply_action (groups, mods) (a :: plan))
      with (foldl apply_action (apply_action (groups, mods) a) plan).
    pose proof (apply_action_batched _ _ _ a Hb) as Hb'.
    destruct (apply_action (groups, mods) a) as [groups' mods'].
    by apply IH. }
  apply H, batched_init.
Qed.

Lemma configure_spec groups key batch :
  batch_of groups key batch →
  ∀ configs current,
    configure groups key batch configs current
    = Some (configs ++ (move_configuration <$> batch),
            match last batch with
            | Some d => groups !! d.1.1
            | None => current
            end).
Proof.
  induction batch as [|[[ref dest_az] mc] batch IH]; intros Hb configs current.
  - simpl. by rewrite app_nil_r.
  - destruct (Hb (ref, dest_az, mc)) as (g & Hg & Hid); [left|].
    simpl in Hg. cbn [configure]. rewrite Hg. simpl.
    rewrite decide_True by done.
    rewrite IH by (intros d Hd; apply Hb; by right).
    rewrite <- app_assoc. simpl. f_equal. f_equal.
    destruct batch as [|d batch]; [simpl; congruence|].
    rewrite last_cons_cons.
    destruct (last (d :: batch)) eqn:El; [done|]. by apply last_None in El.
Qed.

(** The assertions of [move_reserved_instances] hold for a batch that is
    not empty and refers to groups of one id. *)
Lemma build_target_configurations_spec groups key batch :
  batch ≠ [] → batch_of groups key batch →
  ∃ d g, last batch = Some d ∧ groups !! d.1.1 = Some g ∧ id g = key
         ∧ build_target_configurations groups batch
           = Some (key, (move_configuration <$> batch)
                          ++ remainder_configuration g).
Proof.
  intros Hne Hb. unfold build_target_configurations.
  destruct batch as [|first rest] eqn:E; [done|]. rewrite <- E in *.
  assert (Hhead : head batch = Some first) by by rewrite E.
  rewrite Hhead. simpl.
  destruct (Hb first) as (fg & Hfg & Hfid); [rewrite E; left|].
  rewrite Hfg. simpl. rewrite Hfid.
  rewrite (configure_spec groups key batch Hb). simpl.
  destruct (last batch) as [d|] eqn:El.
  2:{ apply last_None in El. congruence. }
  destruct (Hb d) as (g & Hg & Hid); [by apply last_Some_elem_of|].
  exists d, g. rewrite Hg. simpl. split; [done|]. split; [done|].
  split; [done|]. unfold remainder_configuration.
  case_decide; [done|]. by rewrite app_nil_r.
Qed.

(** Under the relation every batch passes the assertions. *)
Lemma batched_batch_of ri_groups groups modifications key batch :
  batched ri_groups groups modifications →
  modifications !! key = Some batch →
  batch ≠ [] ∧ batch_of groups key batch
  ∧ Forall (λ d : move_descriptor, 0 < d.2) batch.
Proof.
  intros [L S C R F N] Hb. split; [|split].
  - intros ->. by apply (N key).
  - intros [[ref dest] mc] Hin.
    destruct (F key batch ref dest mc Hb Hin) as (_ & g0 & Hg0 & Hid).
    destruct (lookup_lt_is_Some_2 groups ref) as [g Hg].
    { rewrite L. by eapply lookup_lt_Some. }
    exists g. split; [done|].
    destruct (S ref g0 g Hg0 Hg) as (-> & _). done.
  - apply Forall_forall. intros [[ref dest] mc] Hin.
    by destruct (F key batch ref dest mc Hb Hin) as (? & _).
Qed.

(** There is a batch for exactly the ids of the touched groups. *)
Lemma batches_touched ri_groups plan key :
  is_Some ((batches ri_groups plan).2 !! key) ↔ touched ri_groups plan key.
Proof.
  pose proof (batches_batched ri_groups plan) as Hb.
  destruct (batches ri_groups plan) as [groups mods] eqn:E.
  unfold touched. rewrite E. simpl in *. split.
  - intros [batch Hbatch].
    destruct (batched_batch_of _ _ _ _ _ Hb Hbatch) as (Hne & _ & Hpos).
    destruct batch as [|[[ref dest] mc] rest] eqn:Eb; [done|].
    rewrite <- Eb in *.
    assert (Hin : (ref, dest, mc) ∈ batch) by (rewrite Eb; left).
    destruct Hb as [L S C R F N].
    destruct (F key batch ref dest mc Hbatch Hin) as (Hmc & g0 & Hg0 & Hid).
    destruct (lookup_lt_is_Some_2 groups ref) as [g Hg].
    { rewrite L. by eapply lookup_lt_Some. }
    exists ref, g0, g. repeat split; try done.
    pose proof (C ref g0 g Hg0 Hg) as Hc. rewrite Hid, Hbatch in Hc.
    simpl in Hc. pose proof (batch_moves_elem ref dest mc batch Hpos Hin). lia.
  - intros (i & g0 & g & Hg0 & Hg & Hid & Hdiff).
    destruct Hb as [L S C R F N].
    pose proof (C i g0 g Hg0 Hg) as Hc. rewrite Hid in Hc.
    destruct (mods !! key) as [batch|]; [done|].
    simpl in Hc. unfold batch_moves in Hc. simpl in Hc. lia.
Qed.

Section ExecutorProperties.

Variable modify_reserved_instances : request → string.
Variable time_time : nat → string.

Lemma sent_ids start built :
  reserved_instance_ids <$> sent time_time start built = (λ b, [b.1]) <$> built.
Proof.
  revert start. induction built as [|b built IH]; intros start; simpl.
  - done.
  - by rewrite IH.
Qed.

Lemma sent_configurations start built :
  target_configurations <$> sent time_time start built = built.*2.
Proof.
  revert start. induction built as [|b built IH]; intros start; simpl.
  - done.
  - by rewrite IH.
Qed.

(** The second loop of [execute_plan], when every batch passes the
    assertions: dry-run mode sends nothing and answers the sentinel
    for every batch, live mode sends one request for every batch. *)
Lemma foldl_submit groups optimize batches_list built :
  Forall2 (λ batch b, build_target_configurations groups batch = Some b)
          batches_list built →
  ∀ ids conn,
    foldl (submit modify_reserved_instances time_time groups optimize)
          (Some (ids, conn)) batches_list
    = if optimize
      then Some (ids ++ (modify_reserved_instances
                           <$> sent time_time (length conn) built),
                 conn ++ sent time_time (length conn) built)
      else Some (ids ++ replicate (length batches_list) DRY_RUN, conn).
Proof.
  induction 1 as [|batch b l built Hb _ IH]; intros ids conn.
  - simpl. rewrite !app_nil_r. by destruct optimize.
  - cbn [foldl]. unfold submit at 2. simpl.
    unfold move_reserved_instances. rewrite Hb. simpl.
    destruct b as [key configs]. destruct optimize; simpl.
    + rewrite IH. rewrite length_app. simpl.
      replace (length conn + 1)%nat with (S (length conn)) by lia.
      by rewrite <- !app_assoc.
    + rewrite IH. by rewrite <- app_assoc.
Qed.

End ExecutorProperties.

Lemma config_total_app l1 l2 :
  config_total (l1 ++ l2) = config_total l1 + config_total l2.
Proof.
  unfold config_total. induction l1 as [|c l1 IH]; simpl; [lia|].
  rewrite IH. lia.
Qed.

Lemma config_total_moves (batch : list move_descriptor) :
  config_total (move_configuration <$> batch)
  = foldr (λ (d : move_descriptor) total, d.2 + total) 0 batch.
Proof.
  induction batch as [|d l IH]; [done|].
  rewrite fmap_cons.
  change (config_total (move_configuration d :: (move_configuration <$> l)))
    with (d.2 + config_total (move_configuration <$> l)).
  by rewrite IH.
Qed.

Lemma config_total_remainder g :
  0 ≤ instance_count g →
  config_total (remainder_configuration g) = instance_count g.
Proof.
  intros Hge. unfold remainder_configuration, config_total.
  case_decide; simpl; lia.
Qed.

(** When the ids tell the groups apart, a batch holds the moves of one
    group, and its moves and what is left of the group add up to what
    the group had. *)
Lemma batch_conserves ri_groups groups modifications key batch :
  NoDup (id <$> ri_groups) →
  batched ri_groups groups modifications →
  modifications !! key = Some batch →
  ∃ i g g',
    ri_groups !! i = Some g ∧ id g = key ∧ groups !! i = Some g'
    ∧ (∀ d : move_descriptor, d ∈ batch → d.1.1 = i)
    ∧ build_target_configurations groups batch
      = Some (key, (move_configuration <$> batch) ++ remainder_configuration g')
    ∧ 0 ≤ instance_count g'
    ∧ config_total (move_configuration <$> batch) + instance_count g'
      = instance_count g.
Proof.
  intros Hnd Hb Hbatch.
  destruct (batched_batch_of _ _ _ _ _ Hb Hbatch) as (Hne & Hof & Hpos).
  destruct (build_target_configurations_spec groups key batch Hne Hof)
    as ([[ref dest] mc] & g' & Hlast & Hg' & Hid' & Hbuild).
  simpl in Hg'. apply last_Some_elem_of in Hlast.
  destruct Hb as [L S C R F N].
  destruct (F key batch ref dest mc Hbatch Hlast) as (Hmc & g & Hg & Hid).
  assert (Hrefs : ∀ d : move_descriptor, d ∈ batch → d.1.1 = ref).
  { intros [[ref' dest'] mc'] Hin. simpl.
    destruct (F key batch ref' dest' mc' Hbatch Hin) as (_ & h & Hh & Hhid).
    eapply NoDup_lookup; [exact Hnd| |].
    - rewrite list_lookup_fmap, Hh. simpl. by rewrite Hhid.
    - rewrite list_lookup_fmap, Hg. simpl. by rewrite Hid. }
  pose proof (C ref g g' Hg Hg') as Hc. rewrite Hid, Hbatch in Hc.
  simpl in Hc.
  pose proof (batch_moves_elem ref dest mc batch Hpos Hlast) as Hle.
  rewrite (batch_moves_all ref batch Hrefs) in Hc, Hle.
  rewrite <- config_total_moves in Hc, Hle.
  exists ref, g, g'. repeat (split; [done|]). split.
  - destruct (R ref g g' Hg Hg'); lia.
  - lia.
Qed.

Lemma Forall2_build {A B} (P : A → B → Prop) (l : list A) :
  (∀ x, x ∈ l → ∃ y, P x y) → ∃ k, Forall2 P l k.
Proof.
  induction l as [|x l IH]; intros H.
  - by exists [].
  - destruct (H x) as [y Hy]; [left|].
    destruct IH as [k Hk]; [intros x' Hx'; apply H; by right|].
    exists (y :: k). by constructor.
Qed.

Section ExecutePlan.

Variable modify_reserved_instances : request → string.
Variable time_time : nat → string.

(** [execute_plan] never fails: it builds the configurations of every
    batch, and answers the sentinel for each of them in dry-run mode
    or sends one request for each of them in live mode. *)
Lemma execute_plan_result ri_groups plan optimize :
  ∃ built,
    Forall2 (built_for (batches ri_groups plan).1)
            (map_to_list (batches ri_groups plan).2) built
    ∧ execute_plan modify_reserved_instances time_time
                   ri_groups plan optimize
      = if optimize
        then Some (modify_reserved_instances <$> sent time_time 0 built,
                   sent time_time 0 built)
        else Some (replicate (length built) DRY_RUN, []).
Proof.
  pose proof (batches_batched ri_groups plan) as Hb.
  unfold execute_plan.
  destruct (batches ri_groups plan) as [groups mods]. simpl in *.
  destruct (Forall2_build (built_for groups) (map_to_list mods))
    as [built Hbuilt].
  { intros [key batch] Hin. apply elem_of_map_to_list in Hin.
    destruct (batched_batch_of _ _ _ _ _ Hb Hin) as (Hne & Hof & _).
    destruct (build_target_configurations_spec groups key batch Hne Hof)
      as (d & g & _ & _ & _ & Hbuild).
    eexists. split; [|exact Hbuild]. done. }
  exists built. split; [done|].
  rewrite (foldl_submit _ _ groups optimize (values mods) built).
  - simpl. destruct optimize; [done|].
    unfold values. rewrite length_fmap.
    by rewrite (Forall2_length _ _ _ Hbuilt).
  - unfold values. apply Forall2_fmap_l.
    eapply Forall2_impl; [exact Hbuilt|]. by intros kb b [_ ?].
Qed.

(** The keys of the batches, the ids of the requests. *)
Lemma built_keys groups (l : list (string * list move_descriptor)) built :
  Forall2 (built_for groups) l built → built.*1 = l.*1.
Proof.
  induction 1 as [|kb b l built [Hk _] _ IH]; [done|].
  rewrite !fmap_cons. by rewrite Hk, IH.
Qed.

(** C4: in dry-run mode [execute_plan] sends no request and answers
    the sentinel for every batch; in live mode it sends exactly one
    request for every id of a donor group that the plan touches,
    whatever the number of actions, and answers with what the service
    answered to each. *)
Theorem execute_plan_requests ri_groups plan :
  ∃ keys,
    NoDup keys
    ∧ (∀ key, key ∈ keys ↔ touched ri_groups plan key)
    ∧ execute_plan modify_reserved_instances time_time ri_groups plan false
      = Some (replicate (length keys) DRY_RUN, [])
    ∧ ∃ conn,
        execute_plan modify_reserved_instances time_time ri_groups plan true
        = Some (modify_reserved_instances <$> conn, conn)
        ∧ reserved_instance_ids <$> conn = (λ key, [key]) <$> keys.
Proof.
  exists (map_to_list (batches ri_groups plan).2).*1.
  split; [apply NoDup_fst_map_to_list|]. split.
  - intros key. rewrite <- batches_touched. rewrite list_elem_of_fmap. split.
    + intros ([k batch] & -> & Hin). apply elem_of_map_to_list in Hin. eauto.
    + intros [batch Hbatch]. exists (key, batch). split; [done|].
      by apply elem_of_map_to_list.
  - destruct (execute_plan_result ri_groups plan false) as (built & HF & ->).
    destruct (execute_plan_result ri_groups plan true) as (built' & HF' & ->).
    split.
    + by rewrite length_fmap, (Forall2_length _ _ _ HF).
    + eexists. split; [done|].
      rewrite sent_ids. rewrite <- (built_keys _ _ _ HF').
      by rewrite <- list_fmap_compose.
Qed.

End ExecutePlan.

(** What went out of a group is in the batch of its id, is what the
    group lost, and is never more than what the group had. *)
Lemma moved_out_capacity ri_groups plan i g :
  ri_groups !! i = Some g →
  ∃ g', (batches ri_groups plan).1 !! i = Some g'
        ∧ moved_out (batches ri_groups plan).2 i
          = instance_count g - instance_count g'
        ∧ 0 ≤ moved_out (batches ri_groups plan).2 i ≤ Z.max 0 (instance_count g).
Proof.
  intros Hg. pose proof (batches_batched ri_groups plan) as Hb.
  destruct (batches ri_groups plan) as [groups mods]. simpl in *.
  pose proof Hb as [L S C R F N].
  destruct (lookup_lt_is_Some_2 groups i) as [g' Hg'].
  { rewrite L. by eapply lookup_lt_Some. }
  exists g'. split; [done|].
  rewrite (moved_out_single mods i (id g)).
  - pose proof (C i g g' Hg Hg') as Hc.
    assert (0 ≤ batch_moves i (default [] (mods !! id g))).
    { destruct (mods !! id g) as [batch|] eqn:E; simpl; [|done].
      apply batch_moves_nonneg.
      by destruct (batched_batch_of _ _ _ _ _ Hb E) as (_ & _ & ?). }
    destruct (R i g g' Hg Hg'); lia.
  - intros k batch Hbatch Hne. apply batch_moves_none.
    intros [[ref dest] mc] Hin. simpl. intros ->.
    destruct (F k batch i dest mc Hbatch Hin) as (_ & g0 & Hg0 & Hid).
    congruence.
Qed.

Lemma descriptor_total_app (l1 l2 : list move_descriptor) :
  foldr (λ (d : move_descriptor) total, d.2 + total) 0 (l1 ++ l2)
  = foldr (λ (d : move_descriptor) total, d.2 + total) 0 l1
    + foldr (λ (d : move_descriptor) total, d.2 + total) 0 l2.
Proof. induction l1 as [|d l1 IH]; simpl; [lia|]. rewrite IH. lia. Qed.

Lemma descriptor_total_perm (l1 l2 : list move_descriptor) :
  l1 ≡ₚ l2 →
  foldr (λ (d : move_descriptor) total, d.2 + total) 0 l1
  = foldr (λ (d : move_descriptor) total, d.2 + total) 0 l2.
Proof.
  induction 1 as [|x l1 l2 _ IH|x y l|l1 l2 l3 _ IH1 _ IH2]; simpl.
  - done.
  - by rewrite IH.
  - lia.
  - by rewrite IH1.
Qed.

Lemma all_moves_insert modifications key batch :
  all_moves (<[key := batch]> modifications)
  = all_moves (delete key modifications)
    + foldr (λ (d : move_descriptor) total, d.2 + total) 0 batch.
Proof.
  unfold all_moves, values. rewrite <- insert_delete_eq.
  rewrite (descriptor_total_perm _
             (batch ++ concat (map_to_list (delete key modifications)).*2)).
  - rewrite descriptor_total_app. lia.
  - rewrite map_to_list_insert by apply lookup_delete_eq. done.
Qed.

Lemma all_moves_delete modifications key :
  all_moves modifications
  = all_moves (delete key modifications)
    + foldr (λ (d : move_descriptor) total, d.2 + total) 0
            (default [] (modifications !! key)).
Proof.
  destruct (modifications !! key) as [batch|] eqn:E; simpl.
  - rewrite <- (insert_id modifications key batch E) at 1.
    apply all_moves_insert.
  - rewrite delete_id by done. lia.
Qed.

(** Recording a move adds its count to the batches, and nothing else. *)
Lemma record_move_total modifications key (d : move_descriptor) :
  all_moves (record_move modifications key d) = all_moves modifications + d.2.
Proof.
  assert (Heq : record_move modifications key d
                = <[key := default [] (modifications !! key) ++ [d]]>
                    modifications).
  { apply map_eq. intros k. rewrite record_move_lookup.
    case_decide as Hk.
    - subst k. by rewrite lookup_insert_eq.
    - by rewrite lookup_insert_ne. }
  rewrite Heq, all_moves_insert, (all_moves_delete modifications key).
  rewrite descriptor_total_app. simpl. lia.
Qed.

(** The descriptors that the while loop creates carry the count of the
    action or, when the selected groups hold less, all that they hold:
    no descriptor is created for the rest of the count. *)
Lemma consume_total refs : ∀ dest_az count groups modifications,
  NoDup refs → all_available groups refs →
  all_moves (consume refs dest_az count groups modifications).2
  = all_moves modifications
    + Z.min (Z.max 0 count) (remaining_capacity groups refs).
Proof.
  induction refs as [|ref refs IH]; intros dest_az count groups mods Hnd Hav.
  - unfold remaining_capacity. simpl. lia.
  - pose proof (remaining_capacity_nonneg _ _ Hav) as Hge.
    rewrite consume_cons. case_decide as Hcount; [|cbn [snd]; lia].
    destruct (Hav ref) as (dg & Hdg & Hpos); [left|].
    pose proof Hnd as Hnd'. apply NoDup_cons in Hnd' as [Hfresh Hnd'].
    rewrite Hdg. simpl.
    set (mc := Z.min count (instance_count dg)).
    set (groups1 := <[ref := set_instance_count dg (instance_count dg - mc)]>
                      groups).
    set (mods1 := record_move mods (id dg) (ref, dest_az, mc)).
    assert (Hav1 : all_available groups1 refs) by by eapply all_available_tail.
    rewrite (IH dest_az (count - mc) groups1 mods1 Hnd' Hav1).
    pose proof (remaining_capacity_nonneg _ _ Hav1) as Hge1.
    assert (Hrest : remaining_capacity groups1 refs
                    = remaining_capacity groups refs).
    { apply remaining_capacity_ext. intros r Hr. unfold groups1.
      rewrite list_lookup_insert_ne; [done|]. by intros ->. }
    unfold mods1. rewrite record_move_total. simpl.
    change (remaining_capacity groups (ref :: refs))
      with (match groups !! ref with
            | Some g => instance_count g + remaining_capacity groups refs
            | None => remaining_capacity groups refs
            end).
    rewrite Hdg, Hrest. rewrite Hrest in Hge1. unfold mc. lia.
Qed.

Section Conservation.

Variable modify_reserved_instances : request → string.
Variable time_time : nat → string.

Lemma sent_Forall (Q : string → list ReservedInstancesConfiguration → Prop)
    built :
  Forall (λ b, Q b.1 b.2) built →
  ∀ start,
    Forall (λ r, ∃ key, reserved_instance_ids r = [key]
                        ∧ Q key (target_configurations r))
           (sent time_time start built).
Proof.
  induction 1 as [|b built Hb _ IH]; intros start; simpl.
  - constructor.
  - constructor; [|apply IH]. by exists b.1.
Qed.

Lemma length_sent start built :
  length (sent time_time start built) = length built.
Proof.
  revert start. induction built as [|b built IH]; intros start; simpl.
  - done.
  - by rewrite IH.
Qed.

(** C2: the ids of the reservation groups identify them, as EC2
    reservation ids do (two groups under one id would share a batch).
    Then every group that the plan touches has one batch, whose target configurations
    are its moves followed by the remainder configuration when
    something is left, and the counts of the moves plus what is left
    are the capacity the group had; the requests of live mode carry
    these configurations. *)
Theorem execute_plan_conserves_capacity ri_groups plan :
  NoDup (id <$> ri_groups) →
  (∀ key, touched ri_groups plan key →
     ∃ batch i g g',
       (batches ri_groups plan).2 !! key = Some batch
       ∧ ri_groups !! i = Some g ∧ id g = key
       ∧ (batches ri_groups plan).1 !! i = Some g'
       ∧ build_target_configurations (batches ri_groups plan).1 batch
         = Some (key, (move_configuration <$> batch)
                        ++ remainder_configuration g')
       ∧ config_total (move_configuration <$> batch) + instance_count g'
         = instance_count g
       ∧ config_total ((move_configuration <$> batch)
                         ++ remainder_configuration g')
         = instance_count g)
  ∧ ∃ conn,
      execute_plan modify_reserved_instances time_time ri_groups plan true
      = Some (modify_reserved_instances <$> conn, conn)
      ∧ Forall (λ r, ∃ key, reserved_instance_ids r = [key]
                            ∧ touched ri_groups plan key
                            ∧ conserves ri_groups key (target_configurations r))
               conn.
Proof.
  intros Hnd. pose proof (batches_batched ri_groups plan) as Hb.
  split.
  - intros key Ht. apply batches_touched in Ht as [batch Hbatch].
    destruct (batch_conserves _ _ _ _ _ Hnd Hb Hbatch)
      as (i & g & g' & Hg & Hid & Hg' & _ & Hbuild & Hge & Hsum).
    exists batch, i, g, g'. repeat (split; [done|]).
    rewrite config_total_app, config_total_remainder by done. done.
  - destruct (execute_plan_result modify_reserved_instances time_time
                ri_groups plan true) as (built & HF & ->).
    eexists. split; [done|].
    apply (sent_Forall (λ key configs, touched ri_groups plan key
                                       ∧ conserves ri_groups key configs)).
    eapply Forall2_Forall_r; [exact HF|].
    apply Forall_forall. intros [key batch] Hin [k configs] [Hk Hbuilt].
    simpl in *. subst k. apply elem_of_map_to_list in Hin.
    split; [apply batches_touched; eauto|].
    destruct (batch_conserves _ _ _ _ _ Hnd Hb Hin)
      as (i & g & g' & Hg & Hid & Hg' & _ & Hbuild & Hge & Hsum).
    rewrite Hbuild in Hbuilt. injection Hbuilt as <-.
    exists i, g. repeat (split; [done|]).
    rewrite config_total_app, config_total_remainder by done. done.
Qed.

(** C10: [execute_plan] returns a result for every batch it formed,
    whatever the counts of the plan; what it moves out of a group is
    never negative and never more than the capacity the group had;
    and an action moves its count or, when the groups selected for it
    hold less, all that they hold: the rest of the count is dropped,
    no descriptor being created for it. *)
Theorem execute_plan_drops_excess ri_groups plan optimize :
  (∃ ids conn,
     execute_plan modify_reserved_instances time_time ri_groups plan optimize
     = Some (ids, conn)
     ∧ length ids = size (batches ri_groups plan).2)
  ∧ (∀ i g, ri_groups !! i = Some g →
       0 ≤ moved_out (batches ri_groups plan).2 i ≤ Z.max 0 (instance_count g))
  ∧ (∀ groups modifications itype source_az dest_az count,
       let refs := select_donor_groups groups itype source_az in
       let after := apply_action (groups, modifications)
                                 (itype, source_az, dest_az, count) in
       let moved := Z.min (Z.max 0 count) (remaining_capacity groups refs) in
       remaining_capacity after.1 refs = remaining_capacity groups refs - moved
       ∧ all_moves after.2 = all_moves modifications + moved).
Proof.
  split; [|split].
  - destruct (execute_plan_result modify_reserved_instances time_time
                ri_groups plan optimize) as (built & HF & ->).
    apply Forall2_length in HF. rewrite length_map_to_list in HF.
    destruct optimize; eexists _, _; (split; [done|]).
    + by rewrite length_fmap, length_sent.
    + by rewrite length_replicate.
  - intros i g Hg.
    by destruct (moved_out_capacity ri_groups plan i g Hg) as (_ & _ & _ & ?).
  - intros groups mods itype source_az dest_az count. simpl. split.
    + apply consume_capacity.
      * apply select_donor_groups_NoDup.
      * apply select_donor_groups_available.
    + apply consume_total.
      * apply select_donor_groups_NoDup.
      * apply select_donor_groups_available.
Qed.

End Conservation.

(** ** The in-flight guard of [riptimize] *)

Section InFlight.

Variable modify_reserved_instances : request → string.
Variable time_time : nat → string.

(** C5: while earlier modifications are still processing, [riptimize]
    still computes the plan from the clean mismatch, but runs the
    executor in dry-run mode whatever [optimize] says: no request is
    sent and every modification id it returns is the sentinel. *)
Theorem riptimize_inflight_dry_run
    (by_account : gmap string inventory) (reserved : inventory)
    (zones processing : list string) (ri_groups : list ReservedInstance)
    (optimize : bool) :
  processing ≠ [] →
  ∃ result,
    riptimize modify_reserved_instances time_time by_account reserved zones
              processing ri_groups optimize
    = Some (result, [])
    ∧ clean_mismatch result
      = (eliminate_unsupported_zones
           (compute_ri_mistmatch reserved (aggregate_inventory by_account))
           zones).1
    ∧ plan result = greedy_distribution (clean_mismatch result)
    ∧ modification_ids result
      = (if decide (0 < length (plan result))%nat
         then default []
                (fst <$> execute_plan modify_reserved_instances time_time
                           ri_groups (plan result) false)
         else [])
    ∧ Forall (λ modification_id, modification_id = DRY_RUN)
             (modification_ids result).
Proof.
  intros Hproc. unfold riptimize.
  assert (Hflag : bool_decide (length processing = 0%nat) = false).
  { apply bool_decide_eq_false. by destruct processing. }
  cbv zeta. rewrite Hflag. cbn [negb]. rewrite andb_false_r.
  destruct (eliminate_unsupported_zones
              (compute_ri_mistmatch reserved (aggregate_inventory by_account))
              zones) as [clean eliminated].
  cbn [fst].
  destruct (decide (0 < length (greedy_distribution clean))%nat) as [Hlen|Hlen].
  - destruct (execute_plan_result modify_reserved_instances time_time
                ri_groups (greedy_distribution clean) false)
      as (built & _ & Hrun).
    rewrite Hrun. simpl. eexists. split; [done|]. simpl.
    rewrite decide_True by done. rewrite Hrun. simpl.
    repeat (split; [done|]).
    apply Forall_forall. intros x Hx. by apply elem_of_replicate in Hx as [? _].
  - simpl. eexists. split; [done|]. simpl.
    rewrite decide_False by done. repeat (split; [done|]). constructor.
Qed.

End InFlight.

(** ** Instances *)

Lemma execute_plan_conserves_capacity_witness :
  let ri_groups :=
    [ {| id := "ri-1"; instance_type := "m4.large";
         availability_zone := "us-east-1a"; instance_count := 4 |};
      {| id := "ri-2"; instance_type := "m4.large";
         availability_zone := "us-east-1a"; instance_count := 5 |} ] in
  let plan := [("m4.large", "us-east-1a", "us-east-1b", 6);
               ("m4.large", "us-east-1a", "us-east-1c", 1)] in
  ∃ conn,
    execute_plan (λ _, "rimod-1") (λ _, "0.0") ri_groups plan true
    = Some ((λ _, "rimod-1") <$> conn, conn)
    ∧ Forall (λ r, ∃ key, reserved_instance_ids r = [key]
                          ∧ touched ri_groups plan key
                          ∧ conserves ri_groups key (target_configurations r))
             conn.
Proof.
  intros ri_groups plan.
  refine (proj2 (execute_plan_conserves_capacity
                   (λ _, "rimod-1") (λ _, "0.0") ri_groups plan _)).
  by_compute.
Defined.

Lemma riptimize_inflight_dry_run_witness :
  let by_account : gmap string inventory :=
    {[ "111111111111" :=
         <[ ("m4.large", "us-east-1b") := 6 ]>
           {[ ("m4.large", "us-east-1a") := 4 ]} ]} in
  let reserved : inventory := {[ ("m4.large", "us-east-1a") := 10 ]} in
  let ri_groups :=
    [ {| id := "ri-1"; instance_type := "m4.large";
         availability_zone := "us-east-1a"; instance_count := 10 |} ] in
  ∃ result,
    riptimize (λ _, "rimod-1") (λ _, "0.0") by_account reserved
              ["us-east-1a"; "us-east-1b"] ["rimod-0"] ri_groups true
    = Some (result, [])
    ∧ Forall (λ modification_id, modification_id = DRY_RUN)
             (modification_ids result).
Proof.
  intros by_account reserved ri_groups.
  destruct (riptimize_inflight_dry_run (λ _, "rimod-1") (λ _, "0.0")
              by_account reserved ["us-east-1a"; "us-east-1b"] ["rimod-0"]
              ri_groups true)
    as (result & Hrun & _ & _ & _ & Hids).
  - discriminate.
  - exists result. split; [exact Hrun | exact Hids].
Defined.

(** Two actions that draw on one group make one request, and an action
    that asks for more than the groups hold moves what they hold. *)
Example two_actions_one_request :
  execute_plan (λ r, "rimod-" +:+ default "" (head (reserved_instance_ids r)))
    (λ _, "0.0")
    [ {| id := "ri-1"; instance_type := "m4.large";
         availability_zone := "us-east-1a"; instance_count := 10 |} ]
    [("m4.large", "us-east-1a", "us-east-1b", 3);
     ("m4.large", "us-east-1a", "us-east-1c", 2)]
    true
  = Some (["rimod-ri-1"],
          [ {| client_token := "0.0";
               reserved_instance_ids := ["ri-1"];
               target_configurations :=
                 [ {| cfg_availability_zone := "us-east-1b";
                      cfg_instance_count := 3; cfg_platform := "EC2-VPC" |};
                   {| cfg_availability_zone := "us-east-1c";
                      cfg_instance_count := 2; cfg_platform := "EC2-VPC" |};
                   {| cfg_availability_zone := "us-east-1a";
                      cfg_instance_count := 5; cfg_platform := "EC2-VPC" |} ]
            |} ]).
Proof. by_compute. Qed.

Example excess_is_dropped :
  (batches
     [ {| id := "ri-1"; instance_type := "m4.large";
          availability_zone := "us-east-1a"; instance_count := 4 |};
       {| id := "ri-2"; instance_type := "m4.large";
          availability_zone := "us-east-1a"; instance_count := 5 |} ]
     [("m4.large", "us-east-1a", "us-east-1b", 100)])
  = ([ {| id := "ri-1"; instance_type := "m4.large";
          availability_zone := "us-east-1a"; instance_count := 0 |};
       {| id := "ri-2"; instance_type := "m4.large";
          availability_zone := "us-east-1a"; instance_count := 0 |} ],
     <[ "ri-2" := [(1%nat, "us-east-1b", 5)] ]>
       {[ "ri-1" := [(0%nat, "us-east-1b", 4)] ]}).
Proof. by_compute. Qed.

(** * Further properties *)

(** ** Counting loops *)

Lemma entries_total_app {K} `{EqDecision K} (k : K) (l1 l2 : list (K * Z)) :
  entries_total k (l1 ++ l2) = entries_total k l1 + entries_total k l2.
Proof.
  unfold entries_total. induction l1 as [|e l1 IH]; simpl; [lia|].
  rewrite IH. case_decide; lia.
Qed.

Lemma entries_total_absent {K} `{EqDecision K} (k : K) (l : list (K * Z)) :
  k ∉ l.*1 → entries_total k l = 0.
Proof.
  unfold entries_total. induction l as [|e l IH]; intros Hk; simpl; [done|].
  rewrite fmap_cons in Hk. apply not_elem_of_cons in Hk as [Hne Hk].
  rewrite decide_False by done. by apply IH.
Qed.

(** The counting loop over any sequence of entries, keys repeated or
    not: a key of the sequence ends at its old count, or 0, plus the sum
    of its entries, and any other key keeps its entry. *)
Lemma foldl_add_count_lookup (l : list (itype_and_az * Z)) :
  ∀ (acc : inventory) k,
    foldl add_count acc l !! k
    = if decide (k ∈ l.*1) then Some (get acc k + entries_total k l)
      else acc !! k.
Proof.
  induction l as [|[k' c] l IH]; intros acc k.
  - rewrite decide_False; [done|]. simpl. apply not_elem_of_nil.
  - change (foldl add_count acc ((k', c) :: l))
      with (foldl add_count (add_count acc (k', c)) l).
    assert (Hstep : add_count acc (k', c) !! k
                    = if decide (k' = k) then Some (get acc k + c)
                      else acc !! k).
    { unfold add_count, get. case_decide as Hk.
      - subst k'. destruct (acc !! k); simpl; by rewrite lookup_insert_eq.
      - destruct (acc !! k'); by rewrite lookup_insert_ne. }
    rewrite IH, fmap_cons. unfold get at 1. rewrite Hstep.
    change (((k', c) : itype_and_az * Z).1) with k'.
    change (entries_total k ((k', c) :: l))
      with (if decide (k' = k) then c + entries_total k l
            else entries_total k l).
    destruct (decide (k' = k)) as [->|Hne].
    + rewrite (decide_True (P := k ∈ k :: l.*1)) by left.
      case_decide as Hin; simpl; f_equal; [lia|].
      rewrite (entries_total_absent k l Hin). lia.
    + destruct (decide (k ∈ l.*1)) as [Hin|Hout].
      * rewrite (decide_True (P := k ∈ k' :: l.*1)) by by right.
        done.
      * rewrite (decide_False (P := k ∈ k' :: l.*1)); [done|].
        intros [?|?]%elem_of_cons; congruence.
Qed.

Lemma entries_total_ones (running : list Instance.t) k :
  entries_total k
    ((λ i, ((Instance.instance_type i, Instance.placement i), 1)) <$> running)
  = Z.of_nat
      (length (filter (λ i, (Instance.instance_type i, Instance.placement i) = k)
                      running)).
Proof.
  induction running as [|i running IH]; [done|].
  rewrite fmap_cons, filter_cons.
  change (entries_total k (?e :: ?l))
    with (if decide (e.1 = k) then e.2 + entries_total k l
          else entries_total k l).
  simpl. rewrite IH. case_decide; simpl; lia.
Qed.

(** X1: the inventory of an account maps every pair of an instance type
    and a zone to the number of running instances with that pair, and
    has no entry for a pair without instances. *)
Theorem get_account_i_inventory_counts (running : list Instance.t) k :
  get_account_i_inventory running !! k
  = let n := length
               (filter (λ i, (Instance.instance_type i, Instance.placement i) = k)
                       running) in
    if decide (n = 0%nat) then None else Some (Z.of_nat n).
Proof.
  unfold get_account_i_inventory.
  assert (Hfold : ∀ acc,
             foldl count_instance acc running
             = foldl add_count acc
                 ((λ i, ((Instance.instance_type i, Instance.placement i), 1))
                    <$> running)).
  { induction running as [|i running IH]; intros acc; [done|].
    simpl. by rewrite IH. }
  rewrite Hfold, foldl_add_count_lookup, entries_total_ones.
  unfold get. rewrite lookup_empty. simpl.
  set (matching := filter _ running).
  assert (Hin : k ∈ ((λ i, ((Instance.instance_type i, Instance.placement i), 1))
                       <$> running).*1 ↔ matching ≠ []).
  { rewrite <- list_fmap_compose. rewrite list_elem_of_fmap. split.
    - intros (i & Hk & Hi). simpl in Hk.
      assert (i ∈ matching) as Him
          by (apply list_elem_of_filter; split; [done|done]).
      intros Hnil. rewrite Hnil in Him. by apply not_elem_of_nil in Him.
    - intros Hne. destruct matching as [|i rest] eqn:E; [done|].
      assert (i ∈ filter (λ i, (Instance.instance_type i,
                                Instance.placement i) = k) running) as Him
          by (fold matching; rewrite E; left).
      apply list_elem_of_filter in Him as [Hk Hi]. by exists i. }
  destruct (decide (length matching = 0%nat)) as [Hz|Hnz].
  - rewrite decide_False; [done|]. rewrite Hin.
    intros Hne. apply Hne. by apply nil_length_inv.
  - rewrite decide_True; [f_equal; lia|]. apply Hin. intros Hnil.
    apply Hnz. by rewrite Hnil.
Qed.

(** ** Aggregation adds up the accounts *)

Lemma get_merge_counts (a b : inventory) k :
  get (merge_counts a b) k = get a k + get b k.
Proof.
  unfold get. rewrite merge_counts_lookup.
  destruct (a !! k), (b !! k); simpl; lia.
Qed.

Lemma foldl_aggregate_account (l : list inventory) :
  ∀ (acc : inventory) k,
    get (foldl aggregate_account acc l) k
    = get acc k + total ((λ inv, get inv k) <$> l)
    ∧ (is_Some (foldl aggregate_account acc l !! k)
       ↔ is_Some (acc !! k) ∨ ∃ inv, inv ∈ l ∧ is_Some (inv !! k)).
Proof.
  induction l as [|a l IH]; intros acc k.
  - simpl. split; [unfold total; simpl; lia|]. split; [auto|].
    intros [?|(inv & Hin & _)]; [done|]. by apply elem_of_nil in Hin.
  - change (foldl aggregate_account acc (a :: l))
      with (foldl aggregate_account (aggregate_account acc a) l).
    destruct (IH (aggregate_account acc a) k) as [IHget IHsome].
    rewrite IHget, IHsome, aggregate_account_merge, get_merge_counts.
    rewrite merge_counts_lookup, fmap_cons.
    change (total (get a k :: ((λ inv, get inv k) <$> l)))
      with (get a k + total ((λ inv, get inv k) <$> l)).
    split; [lia|]. split.
    + intros [Hs|(inv & Hin & Hs)].
      * destruct (acc !! k) eqn:Ea; [left; eauto|].
        right. exists a. split; [left|]. destruct (a !! k); [eauto|].
        by destruct Hs.
      * right. exists inv. split; [by right | done].
    + intros [Hs|(inv & Hin & Hs)].
      * left. destruct Hs as [x ->]. by destruct (a !! k); eauto.
      * apply elem_of_cons in Hin as [->|Hin].
        -- left. destruct Hs as [x ->]. by destruct (acc !! k); eauto.
        -- right. by exists inv.
Qed.

(** X2: the aggregate inventory holds, for every key, the sum of the
    counts that the accounts have for it, and it has an entry for a key
    exactly when some account has one. *)
Theorem aggregate_inventory_sums (by_account : gmap string inventory) k :
  get (aggregate_inventory by_account) k
  = total ((λ inv, get inv k) <$> values by_account)
  ∧ (is_Some (aggregate_inventory by_account !! k)
     ↔ ∃ account inv, by_account !! account = Some inv ∧ is_Some (inv !! k)).
Proof.
  unfold aggregate_inventory, aggregate_values.
  destruct (foldl_aggregate_account (values by_account) ∅ k) as [Hget Hsome].
  split.
  - rewrite Hget. unfold get at 1. rewrite lookup_empty. simpl. lia.
  - rewrite Hsome, lookup_empty. split.
    + intros [[? ?]|(inv & Hin & Hs)]; [done|].
      unfold values in Hin. apply list_elem_of_fmap in Hin as ([a i] & -> & Hin).
      apply elem_of_map_to_list in Hin. by exists a, i.
    + intros (a & inv & Ha & Hs). right. exists inv. split; [|done].
      unfold values. apply list_elem_of_fmap. exists (a, inv).
      split; [done|]. by apply elem_of_map_to_list.
Qed.

(** ** The reservation inventory *)

Lemma available_zones_spec (zones : list (string * string)) :
  ∀ supported,
    available_zones zones supported
    = if decide (Forall (λ z, z.2 = "available") zones)
      then Some (supported ++ zones.*1) else None.
Proof.
  induction zones as [|[name state] zones IH]; intros supported.
  - rewrite decide_True by constructor. simpl. by rewrite app_nil_r.
  - cbn [available_zones]. destruct (decide (state ≠ "available")) as [Hs|Hs].
    + rewrite decide_False; [done|]. intros H. by apply Forall_cons in H as [? _].
    + apply dec_stable in Hs. rewrite IH.
      destruct (decide (Forall (λ z, z.2 = "available") zones)) as [Hz|Hz].
      * rewrite decide_True by by constructor.
        rewrite fmap_cons. simpl. by rewrite <- app_assoc.
      * rewrite decide_False; [done|]. intros H.
        by apply Forall_cons in H as [_ ?].
Qed.

Lemma foldl_count_group (ri_groups : list ReservedInstance) :
  ∀ acc, foldl count_group acc ri_groups
         = foldl add_count acc (group_entry <$> ri_groups).
Proof.
  induction ri_groups as [|g l IH]; intros acc; [done|].
  simpl. by rewrite IH.
Qed.

(** X3: [get_ri_inventory] aborts exactly when some zone of the account
    is not available.  Otherwise it answers the names of the zones in
    their order, the modifications it was told are processing, and an
    inventory that maps every pair of type and zone of a group to the
    sum of the instance counts of the groups with that pair, and has no
    other entry. *)
Theorem get_ri_inventory_spec (zones : list (string * string))
    (processing : list string) (ri_groups : list ReservedInstance) :
  match get_ri_inventory zones processing ri_groups with
  | None => Exists (λ z, z.2 ≠ "available") zones
  | Some (reserved, supported, processing') =>
    Forall (λ z, z.2 = "available") zones
    ∧ supported = zones.*1 ∧ processing' = processing
    ∧ ∀ k, reserved !! k
           = if decide (k ∈ (group_entry <$> ri_groups).*1)
             then Some (entries_total k (group_entry <$> ri_groups))
             else None
  end.
Proof.
  unfold get_ri_inventory. rewrite available_zones_spec.
  destruct (decide (Forall (λ z, z.2 = "available") zones)) as [Hz|Hz]; simpl.
  - split; [done|]. split; [done|]. split; [done|]. intros k.
    rewrite foldl_count_group, foldl_add_count_lookup.
    unfold get. rewrite lookup_empty. simpl.
    case_decide; [|done]. f_equal.
  - apply not_Forall_Exists in Hz; [|intros z; apply _].
    eapply Exists_impl; [exact Hz|]. done.
Qed.

(** ** Sums over the entries of a dict *)

Section KeySum.

Context (P : itype_and_az → Prop) `{!∀ k, Decision (P k)}.

Lemma entries_sum_app (l1 l2 : list (itype_and_az * Z)) :
  entries_sum P (l1 ++ l2) = entries_sum P l1 + entries_sum P l2.
Proof.
  unfold entries_sum. induction l1 as [|e l1 IH]; simpl; [lia|].
  rewrite IH. case_decide; lia.
Qed.

Lemma entries_sum_perm (l1 l2 : list (itype_and_az * Z)) :
  l1 ≡ₚ l2 → entries_sum P l1 = entries_sum P l2.
Proof.
  unfold entries_sum.
  induction 1 as [|x l1 l2 _ IH|x y l|l1 l2 l3 _ IH1 _ IH2]; simpl.
  - done.
  - by rewrite IH.
  - repeat case_decide; lia.
  - by rewrite IH1.
Qed.

Lemma key_sum_empty : key_sum P ∅ = 0.
Proof. unfold key_sum, items. by rewrite map_to_list_empty. Qed.

Lemma key_sum_insert_fresh (d : inventory) k v :
  d !! k = None →
  key_sum P (<[k := v]> d) = key_sum P d + (if decide (P k) then v else 0).
Proof.
  intros Hk. unfold key_sum, items.
  rewrite (entries_sum_perm _ ((k, v) :: map_to_list d))
    by by apply map_to_list_insert.
  unfold entries_sum. simpl. case_decide; lia.
Qed.

Lemma key_sum_delete (d : inventory) k :
  key_sum P d
  = key_sum P (delete k d) + (if decide (P k) then get d k else 0).
Proof.
  unfold get. destruct (d !! k) as [v|] eqn:E; simpl.
  - rewrite <- (insert_delete_id d k v E) at 1.
    apply key_sum_insert_fresh, lookup_delete_eq.
  - rewrite delete_id by done. case_decide; lia.
Qed.

Lemma key_sum_insert (d : inventory) k v :
  key_sum P (<[k := v]> d)
  = key_sum P d + (if decide (P k) then v - get d k else 0).
Proof.
  rewrite <- insert_delete_eq.
  rewrite key_sum_insert_fresh by apply lookup_delete_eq.
  rewrite (key_sum_delete d k). case_decide; lia.
Qed.

(** Entries that are 0 do not count. *)
Lemma key_sum_filter_nonzero (d : inventory) :
  key_sum P (filter (λ kv, kv.2 ≠ 0) d) = key_sum P d.
Proof.
  induction d as [|k v d Hk IH] using map_ind.
  - by rewrite map_filter_empty.
  - rewrite map_filter_insert. rewrite key_sum_insert_fresh by done.
    case_decide as Hv; simpl in Hv.
    + rewrite key_sum_insert_fresh; [by rewrite IH|].
      by rewrite map_lookup_filter, Hk.
    + rewrite delete_id by done. rewrite IH.
      subst v. case_decide; lia.
Qed.

(** The subtraction loop takes from the sum what it subtracts. *)
Lemma key_sum_subtract_count (d : inventory) k c :
  key_sum P (subtract_count d (k, c))
  = key_sum P d - (if decide (P k) then c else 0).
Proof.
  assert (Heq : subtract_count d (k, c) = <[k := get d k - c]> d).
  { apply map_eq. intros j. unfold subtract_count, get.
    destruct (decide (k = j)) as [<-|Hne].
    - rewrite lookup_alter_eq, lookup_insert_eq.
      destruct (d !! k) as [v|] eqn:E; simpl.
      + by rewrite E.
      + by rewrite lookup_insert_eq.
    - rewrite lookup_alter_ne, lookup_insert_ne by done.
      destruct (d !! k); [done|]. by rewrite lookup_insert_ne. }
  rewrite Heq, key_sum_insert. case_decide; lia.
Qed.

Lemma key_sum_foldl_subtract_count (l : list (itype_and_az * Z)) :
  ∀ d : inventory,
    key_sum P (foldl subtract_count d l) = key_sum P d - entries_sum P l.
Proof.
  induction l as [|[k c] l IH]; intros d.
  - unfold entries_sum. simpl. lia.
  - change (foldl subtract_count d ((k, c) :: l))
      with (foldl subtract_count (subtract_count d (k, c)) l).
    rewrite IH, key_sum_subtract_count.
    change (entries_sum P ((k, c) :: l))
      with (if decide (P k) then c + entries_sum P l else entries_sum P l).
    case_decide; lia.
Qed.

(** The sum over the mismatch is the sum over the reservations minus
    the sum over the demand. *)
Lemma key_sum_compute_ri_mistmatch (reserved demand : inventory) :
  key_sum P (compute_ri_mistmatch reserved demand)
  = key_sum P reserved - key_sum P demand.
Proof.
  unfold compute_ri_mistmatch.
  by rewrite key_sum_filter_nonzero, key_sum_foldl_subtract_count.
Qed.

End KeySum.

Lemma key_sum_filter_zone (P : itype_and_az → Prop) `{!∀ k, Decision (P k)}
    (zones : list string) (d : inventory) :
  key_sum P (filter (λ kv, kv.1.2 ∈ zones) d)
  = key_sum (λ k, P k ∧ k.2 ∈ zones) d.
Proof.
  induction d as [|k v d Hk IH] using map_ind.
  - by rewrite map_filter_empty, !key_sum_empty.
  - rewrite map_filter_insert. rewrite (key_sum_insert_fresh _ d) by done.
    case_decide as Hz; simpl in Hz.
    + rewrite key_sum_insert_fresh by by rewrite map_lookup_filter, Hk.
      rewrite IH. repeat case_decide; try lia; exfalso; tauto.
    + rewrite delete_id by done. rewrite IH.
      rewrite (decide_False (P := P k ∧ k.2 ∈ zones)) by (intros [_ ?]; done).
      lia.
Qed.

(** ** The surplus of the instance types *)

Lemma entries_sum_type_absent (itype : string) (l : list (itype_and_az * Z)) :
  itype ∉ l.*1.*1 → entries_sum (λ k, k.1 = itype) l = 0.
Proof.
  unfold entries_sum. induction l as [|e l IH]; intros Hk; simpl; [done|].
  rewrite !fmap_cons in Hk. apply not_elem_of_cons in Hk as [Hne Hk].
  rewrite decide_False by done. by apply IH.
Qed.

(** The loop of [compute_ri_surplus] over any sequence of entries. *)
Lemma foldl_add_diff (l : list (itype_and_az * Z)) :
  ∀ (acc : gmap string Z) itype,
    foldl add_diff acc l !! itype
    = if decide (itype ∈ l.*1.*1)
      then Some (default 0 (acc !! itype) + entries_sum (λ k, k.1 = itype) l)
      else acc !! itype.
Proof.
  induction l as [|[[t az] diff] l IH]; intros acc itype.
  - rewrite decide_False; [done|]. simpl. apply not_elem_of_nil.
  - change (foldl add_diff acc (((t, az), diff) :: l))
      with (foldl add_diff (add_diff acc ((t, az), diff)) l).
    assert (Hstep : add_diff acc ((t, az), diff) !! itype
                    = if decide (t = itype)
                      then Some (default 0 (acc !! itype) + diff)
                      else acc !! itype).
    { unfold add_diff. case_decide as Hk.
      - subst t. rewrite lookup_alter_eq.
        destruct (acc !! itype) as [v|] eqn:E; simpl.
        + by rewrite E.
        + by rewrite lookup_insert_eq.
      - rewrite lookup_alter_ne by done.
        destruct (acc !! t); [done|]. by rewrite lookup_insert_ne. }
    rewrite IH, !fmap_cons, Hstep.
    change ((((t, az), diff) : itype_and_az * Z).1.1) with t.
    change (entries_sum (λ k, k.1 = itype) (((t, az), diff) :: l))
      with (if decide (t = itype)
            then diff + entries_sum (λ k, k.1 = itype) l
            else entries_sum (λ k, k.1 = itype) l).
    destruct (decide (t = itype)) as [->|Hne].
    + rewrite (decide_True (P := itype ∈ itype :: l.*1.*1)) by left.
      case_decide as Hin; simpl; f_equal; [lia|].
      rewrite (entries_sum_type_absent itype l Hin). lia.
    + destruct (decide (itype ∈ l.*1.*1)) as [Hin|Hout].
      * rewrite (decide_True (P := itype ∈ t :: l.*1.*1)) by by right.
        done.
      * rewrite (decide_False (P := itype ∈ t :: l.*1.*1)); [done|].
        intros [?|?]%elem_of_cons; congruence.
Qed.

Lemma compute_ri_surplus_lookup (mismatch : inventory) (itype : string) :
  compute_ri_surplus mismatch !! itype
  = if decide (itype ∈ (items mismatch).*1.*1)
    then Some (key_sum (λ k, k.1 = itype) mismatch) else None.
Proof.
  unfold compute_ri_surplus. rewrite foldl_add_diff, lookup_empty. simpl.
  case_decide; [|done]. f_equal.
Qed.

(** X4: the surplus of an instance type is the sum of the diffs of its
    zones.  A type has an entry exactly when the mismatch has a key of
    that type, so a type whose diffs cancel keeps its entry, with 0. *)
Theorem compute_ri_surplus_spec (mismatch : inventory) (itype : string) :
  (compute_ri_surplus mismatch !! itype
   = if decide (itype ∈ (items mismatch).*1.*1)
     then Some (key_sum (λ k, k.1 = itype) mismatch) else None)
  ∧ (itype ∈ (items mismatch).*1.*1
     ↔ ∃ az, is_Some (mismatch !! (itype, az))).
Proof.
  split.
  - apply compute_ri_surplus_lookup.
  - unfold items. rewrite list_elem_of_fmap. split.
    + intros ([t az] & -> & Hin). apply list_elem_of_fmap in Hin
        as ([k v] & [= <-] & Hin).
      apply elem_of_map_to_list in Hin. exists az. eauto.
    + intros (az & v & Hv). exists (itype, az). split; [done|].
      apply list_elem_of_fmap. exists ((itype, az), v). split; [done|].
      by apply elem_of_map_to_list.
Qed.

(** X5: in [riptimize] the surplus of an instance type is what is
    reserved for the type in the supported zones minus what runs of it
    there; instances and reservations in other zones do not count. *)
Theorem ri_surplus_is_reserved_minus_demand
    (reserved demand : inventory) (zones : list string) (itype : string) :
  let clean :=
    (eliminate_unsupported_zones (compute_ri_mistmatch reserved demand)
                                 zones).1 in
  default 0 (compute_ri_surplus clean !! itype)
  = key_sum (λ k, k.1 = itype ∧ k.2 ∈ zones) reserved
    - key_sum (λ k, k.1 = itype ∧ k.2 ∈ zones) demand.
Proof.
  simpl. rewrite compute_ri_surplus_lookup.
  rewrite <- key_sum_compute_ri_mistmatch, <- key_sum_filter_zone.
  case_decide as Hin; [done|]. simpl.
  unfold key_sum. by rewrite entries_sum_type_absent.
Qed.

(** ** More on the mismatch and on the zone filter *)

(** X6: the mismatch is empty exactly when reservations and demand agree
    on every key, and swapping reservations and demand inverts the sign
    of every entry. *)
Theorem compute_ri_mistmatch_balance (reserved demand : inventory) :
  (compute_ri_mistmatch reserved demand = ∅
   ↔ ∀ k, get reserved k = get demand k)
  ∧ compute_ri_mistmatch demand reserved
    = Z.opp <$> compute_ri_mistmatch reserved demand.
Proof.
  split; [split|].
  - intros Hempty k.
    pose proof (compute_ri_mistmatch_lookup reserved demand k) as Hk.
    rewrite Hempty, lookup_empty in Hk. case_decide; [lia | done].
  - intros Heq. apply map_eq. intros k.
    rewrite compute_ri_mistmatch_lookup, lookup_empty.
    case_decide; [done|]. specialize (Heq k). lia.
  - apply map_eq. intros k.
    rewrite lookup_fmap, !compute_ri_mistmatch_lookup.
    repeat case_decide; simpl; try lia; try done. f_equal. lia.
Qed.

(** X7: filtering a clean mismatch again changes nothing and eliminates
    nothing. *)
Theorem eliminate_unsupported_zones_idempotent
    (mismatch : inventory) (zones : list string) :
  let clean := (eliminate_unsupported_zones mismatch zones).1 in
  eliminate_unsupported_zones clean zones = (clean, ∅).
Proof.
  intros clean.
  rewrite (surjective_pairing (eliminate_unsupported_zones clean zones)).
  f_equal; apply map_eq; intros k.
  - rewrite clean_lookup. unfold clean. rewrite clean_lookup.
    by case_decide.
  - rewrite eliminated_lookup, lookup_empty. unfold clean.
    rewrite clean_lookup. by case_decide.
Qed.

(** ** More on the greedy planner *)

(** The two dicts that the first loop of the planner builds. *)
Lemma separate_items (mismatch : inventory) :
  ∃ recepients donors : inventory,
    foldl separate (∅, ∅) (items mismatch) = (recepients, donors)
    ∧ (∀ k d, recepients !! k = Some d ↔ mismatch !! k = Some d ∧ d < 0)
    ∧ (∀ k d, donors !! k = Some d ↔ mismatch !! k = Some d ∧ 0 < d).
Proof.
  pose proof (foldl_separate (map_to_list mismatch)
                (NoDup_fst_map_to_list mismatch) ∅ ∅) as Hsep.
  rewrite list_to_map_to_list in Hsep. unfold items.
  destruct (foldl separate (∅, ∅) (map_to_list mismatch))
    as [recepients donors].
  exists recepients, donors. split; [done|]. simpl in Hsep. split.
  - intros k d. destruct (Hsep k) as [-> _]. rewrite lookup_empty.
    destruct (mismatch !! k) as [v|]; [|split; [done | by intros [? _]]].
    case_decide; split.
    + by intros [= ->].
    + by intros [[= ->] _].
    + done.
    + intros [[= ->] ?]. lia.
  - intros k d. destruct (Hsep k) as [_ ->]. rewrite lookup_empty.
    destruct (mismatch !! k) as [v|]; [|split; [done | by intros [? _]]].
    case_decide; split.
    + by intros [= ->].
    + by intros [[= ->] _].
    + done.
    + intros [[= ->] ?]. lia.
Qed.

(** What taking [move_count] from a donor does to the dict. *)
Lemma donor_update (donors : inventory) k count move_count :
  donors !! k = Some count → 0 < move_count ≤ count → all_positive donors →
  let donors' := if decide (count = move_count) then delete k donors
                 else alter (λ available, available - move_count) k donors in
  all_positive donors'
  ∧ (∀ k', k' ≠ k → donors' !! k' = donors !! k')
  ∧ donors' !! k = (if decide (count = move_count) then None
                    else Some (count - move_count)).
Proof.
  intros Hk Hmove Hpos. simpl. case_decide as Heq.
  - split; [|split].
    + intros k' c. destruct (decide (k' = k)) as [->|Hne].
      * by rewrite lookup_delete_eq.
      * rewrite lookup_delete_ne by done. apply Hpos.
    + intros k' Hne. by rewrite lookup_delete_ne.
    + by rewrite lookup_delete_eq.
  - split; [|split].
    + intros k' c. destruct (decide (k' = k)) as [->|Hne].
      * rewrite lookup_alter_eq, Hk. simpl. intros [= <-]. lia.
      * rewrite lookup_alter_ne by done. apply Hpos.
    + intros k' Hne. by rewrite lookup_alter_ne.
    + by rewrite lookup_alter_eq, Hk.
Qed.

(** The inner loop never brings a donor back. *)
Lemma compensate_dom recepient_itype recepient_az
    (snapshot : list (itype_and_az * Z)) :
  ∀ (donors : inventory) remaining plan k,
    donors !! k = None →
    (compensate recepient_itype recepient_az snapshot donors remaining plan).1
      !! k = None.
Proof.
  induction snapshot as [|[[donor_itype donor_az] count] snapshot IH];
    intros donors remaining plan k Hk; [done|].
  simpl. case_decide; [|by apply IH].
  set (move_count := Z.min (Z.abs remaining) count).
  set (donors1 := if decide (count = move_count)
                  then delete (donor_itype, donor_az) donors
                  else alter (λ available, available - move_count)
                             (donor_itype, donor_az) donors).
  assert (Hk1 : donors1 !! k = None).
  { unfold donors1. case_decide.
    - rewrite lookup_delete. by case_decide.
    - rewrite lookup_alter. case_decide; [|done]. subst k. by rewrite Hk. }
  clearbody donors1. case_decide; [exact Hk1|]. by apply IH.
Qed.

(** The actions that the inner loop appends go from a donor of the
    snapshot to the recepient. *)
Lemma compensate_actions (Q : action → Prop) recepient_itype recepient_az
    (snapshot : list (itype_and_az * Z)) :
  (∀ donor_az count move_count,
     ((recepient_itype, donor_az), count) ∈ snapshot →
     Q (recepient_itype, donor_az, recepient_az, move_count)) →
  ∀ (donors : inventory) remaining plan,
    Forall Q plan →
    Forall Q
      (compensate recepient_itype recepient_az snapshot donors remaining plan).2.
Proof.
  induction snapshot as [|[[donor_itype donor_az] count] snapshot IH];
    intros HQ donors remaining plan Hplan; [done|].
  assert (HQ' : ∀ donor_az count move_count,
             ((recepient_itype, donor_az), count) ∈ snapshot →
             Q (recepient_itype, donor_az, recepient_az, move_count))
    by (intros; eapply HQ; by right).
  simpl. case_decide as Hty; [|by apply IH].
  subst donor_itype.
  set (move_count := Z.min (Z.abs remaining) count).
  set (donors1 := if decide (count = move_count)
                  then delete (recepient_itype, donor_az) donors
                  else alter (λ available, available - move_count)
                             (recepient_itype, donor_az) donors).
  clearbody donors1.
  assert (Hplan1 : Forall Q (plan ++ [(recepient_itype, donor_az, recepient_az,
                                       move_count)])).
  { apply Forall_app. split; [done|]. apply Forall_singleton.
    eapply HQ. left. }
  case_decide; [exact Hplan1|]. by apply IH.
Qed.

Lemma foldl_serve_dom (recepients : list (itype_and_az * Z)) :
  ∀ (donors : inventory) plan k,
    donors !! k = None → (foldl serve (donors, plan) recepients).1 !! k = None.
Proof.
  induction recepients as [|[[itype az] d] recepients IH];
    intros donors plan k Hk; [done|].
  change (foldl serve (donors, plan) (((itype, az), d) :: recepients))
    with (foldl serve (compensate itype az (items donors) donors d plan)
                recepients).
  pose proof (compensate_dom itype az (items donors) donors d plan k Hk) as H1.
  destruct (compensate itype az (items donors) donors d plan)
    as [donors1 plan1].
  by apply IH.
Qed.

Lemma foldl_serve_actions (Q : action → Prop)
    (start : inventory) (recepients : list (itype_and_az * Z)) :
  (∀ itype donor_az recepient_az d move_count,
     ((itype, recepient_az), d) ∈ recepients →
     is_Some (start !! (itype, donor_az)) →
     Q (itype, donor_az, recepient_az, move_count)) →
  ∀ (donors : inventory) plan,
    (∀ k, start !! k = None → donors !! k = None) →
    Forall Q plan →
    Forall Q (foldl serve (donors, plan) recepients).2.
Proof.
  induction recepients as [|[[itype az] d] recepients IH];
    intros HQ donors plan Hsub Hplan; [done|].
  change (foldl serve (donors, plan) (((itype, az), d) :: recepients))
    with (foldl serve (compensate itype az (items donors) donors d plan)
                recepients).
  assert (Hact : Forall Q
            (compensate itype az (items donors) donors d plan).2).
  { apply compensate_actions; [|done].
    intros donor_az count move_count Hin. eapply HQ; [left|].
    apply elem_of_map_to_list in Hin.
    destruct (start !! (itype, donor_az)) as [v|] eqn:E; [eauto|].
    rewrite (Hsub _ E) in Hin. done. }
  assert (Hdom : ∀ k, start !! k = None →
            (compensate itype az (items donors) donors d plan).1 !! k = None)
    by (intros k Hk; by apply compensate_dom, Hsub).
  destruct (compensate itype az (items donors) donors d plan)
    as [donors1 plan1].
  simpl in Hact, Hdom. apply IH; [|done|done].
  intros. eapply HQ; [by right | done].
Qed.

(** The inner loop stops short of the deficit only when it has used up
    every donor of the type that its snapshot holds. *)
Lemma compensate_exhausts recepient_itype recepient_az
    (snapshot : list (itype_and_az * Z)) :
  ∀ (donors : inventory) (remaining : Z) (plan : list action),
    NoDup snapshot.*1 →
    (∀ k c, (k, c) ∈ snapshot → donors !! k = Some c) →
    all_positive donors →
    remaining < 0 →
    let result :=
      compensate recepient_itype recepient_az snapshot donors remaining plan in
    moved_into result.2 (recepient_itype, recepient_az)
    = moved_into plan (recepient_itype, recepient_az) - remaining
    ∨ (∀ donor_az c, ((recepient_itype, donor_az), c) ∈ snapshot →
         result.1 !! (recepient_itype, donor_az) = None).
Proof.
  induction snapshot as [|[[donor_itype donor_az] count] snapshot IH];
    intros donors remaining plan Hnd Hsnap Hpos Hneg.
  - right. intros donor_az c Hin. by apply elem_of_nil in Hin.
  - rewrite fmap_cons in Hnd. apply NoDup_cons in Hnd as [Hfresh Hnd].
    assert (Hcount : donors !! (donor_itype, donor_az) = Some count)
      by (apply Hsnap; left).
    assert (Hcpos : 0 < count) by by apply (Hpos _ _ Hcount).
    assert (Hrest : ∀ k c, (k, c) ∈ snapshot → k ≠ (donor_itype, donor_az)).
    { intros k c Hin ->. apply Hfresh. apply list_elem_of_fmap.
      by exists ((donor_itype, donor_az), c). }
    simpl. destruct (decide (donor_itype = recepient_itype)) as [->|Hother].
    + set (move_count := Z.min (Z.abs remaining) count).
      assert (Hmove : 0 < move_count ≤ count) by (unfold move_count; lia).
      destruct (donor_update donors (recepient_itype, donor_az) count
                  move_count Hcount Hmove Hpos) as (Hpos1 & Hne1 & Heq1).
      set (donors1 := if decide (count = move_count)
                      then delete (recepient_itype, donor_az) donors
                      else alter (λ available, available - move_count)
                                 (recepient_itype, donor_az) donors) in *.
      set (plan1 := plan ++ [(recepient_itype, donor_az, recepient_az,
                              move_count)]).
      assert (Hinto1 : moved_into plan1 (recepient_itype, recepient_az)
                       = moved_into plan (recepient_itype, recepient_az)
                         + move_count).
      { unfold plan1. rewrite moved_into_snoc. simpl.
        by rewrite decide_True. }
      assert (Hsnap1 : ∀ k c, (k, c) ∈ snapshot → donors1 !! k = Some c).
      { intros k c Hin. rewrite Hne1 by by eapply Hrest.
        apply Hsnap. by right. }
      clearbody donors1.
      destruct (decide (0 ≤ remaining + move_count)) as [Hdone|Hmore].
      * left. simpl. rewrite Hinto1. unfold move_count in *. lia.
      * destruct (IH donors1 (remaining + move_count) plan1 Hnd Hsnap1 Hpos1)
          as [Hfull|Hex]; [lia| |].
        -- left. rewrite Hfull, Hinto1. lia.
        -- right. intros az c Hin.
           apply elem_of_cons in Hin as [[= -> ->]|Hin]; [|by eapply Hex].
           apply compensate_dom. rewrite Heq1.
           rewrite decide_True; [done|]. unfold move_count in *. lia.
    + destruct (IH donors remaining plan Hnd) as [Hfull|Hex]; auto.
      { intros k c Hin. apply Hsnap. by right. }
      right. intros az c Hin.
      apply elem_of_cons in Hin as [[= Heq _ _]|Hin]; [done|by eapply Hex].
Qed.

(** The outer loop: every recepient is either given its whole deficit
    or left with no donor of its type. *)
Lemma foldl_serve_maximal (recepients : list (itype_and_az * Z)) :
  NoDup recepients.*1 →
  (∀ k d, (k, d) ∈ recepients → d < 0) →
  ∀ (donors : inventory) (plan : list action),
    all_positive donors →
    let result := foldl serve (donors, plan) recepients in
    (∀ k, k ∉ recepients.*1 → moved_into result.2 k = moved_into plan k)
    ∧ (∀ itype az d, ((itype, az), d) ∈ recepients →
         moved_into result.2 (itype, az) = moved_into plan (itype, az) - d
         ∨ ∀ donor_az, result.1 !! (itype, donor_az) = None).
Proof.
  induction recepients as [|[[itype az] d] recepients IH];
    intros Hnd Hneg donors plan Hpos.
  - simpl. split; [done|]. intros ? ? ? Hin. by apply elem_of_nil in Hin.
  - rewrite fmap_cons in Hnd. apply NoDup_cons in Hnd as [Hfresh Hnd].
    assert (Hd : d < 0) by (apply (Hneg (itype, az)); left).
    change (foldl serve (donors, plan) (((itype, az), d) :: recepients))
      with (foldl serve (compensate itype az (items donors) donors d plan)
                  recepients).
    destruct (compensate_step itype az (items donors) donors d plan)
      as [C P F O B].
    { apply NoDup_fst_map_to_list. }
    { intros k c Hin. by apply elem_of_map_to_list. }
    { done. }
    { done. }
    destruct (compensate_exhausts itype az (items donors) donors d plan)
      as [Hfull|Hex].
    { apply NoDup_fst_map_to_list. }
    { intros k c Hin. by apply elem_of_map_to_list. }
    { done. }
    { done. }
    + pose proof (λ k, compensate_dom itype az (items donors) donors d plan k)
        as Hdom.
      destruct (compensate itype az (items donors) donors d plan)
        as [donors1 plan1].
      simpl in *.
      destruct (IH Hnd (λ k d' Hin, Hneg k d' (list_elem_of_further _ _ _ Hin))
                   donors1 plan1 P) as [IHo IHm].
      split.
      * intros k Hk. try rewrite fmap_cons in Hk.
        apply not_elem_of_cons in Hk as [Hne Hk].
        rewrite IHo by done. by apply O.
      * intros t z d' Hin. apply elem_of_cons in Hin as [[= -> -> ->]|Hin].
        -- left. rewrite IHo by done. done.
        -- destruct (IHm t z d' Hin) as [Hm|Hm]; [left|by right].
           rewrite Hm, O; [done|]. intros [= -> ->]. apply Hfresh.
           apply list_elem_of_fmap. by exists ((itype, az), d').
    + pose proof (foldl_serve_dom recepients
                    (compensate itype az (items donors) donors d plan).1
                    (compensate itype az (items donors) donors d plan).2)
        as Hdom.
      assert (Hgone : ∀ donor_az,
                (compensate itype az (items donors) donors d plan).1
                  !! (itype, donor_az) = None).
      { intros donor_az.
        destruct (donors !! (itype, donor_az)) as [c|] eqn:E.
        - eapply Hex. by apply elem_of_map_to_list.
        - by apply compensate_dom. }
      destruct (compensate itype az (items donors) donors d plan)
        as [donors1 plan1].
      simpl in *.
      destruct (IH Hnd (λ k d' Hin, Hneg k d' (list_elem_of_further _ _ _ Hin))
                   donors1 plan1 P) as [IHo IHm].
      split.
      * intros k Hk. try rewrite fmap_cons in Hk.
        apply not_elem_of_cons in Hk as [Hne Hk].
        rewrite IHo by done. by apply O.
      * intros t z d' Hin. apply elem_of_cons in Hin as [[= -> -> ->]|Hin].
        -- right. intros donor_az. by apply Hdom.
        -- destruct (IHm t z d' Hin) as [Hm|Hm]; [left|by right].
           rewrite Hm, O; [done|]. intros [= -> ->]. apply Hfresh.
           apply list_elem_of_fmap. by exists ((itype, az), d').
Qed.

Lemma greedy_distribution_actions (mismatch : inventory) :
  Forall (λ a : action, 0 < get mismatch (a.1.1.1, a.1.1.2)
                        ∧ get mismatch (a.1.1.1, a.1.2) < 0)
         (greedy_distribution mismatch).
Proof.
  destruct (separate_items mismatch) as (recepients & donors & Heq & HR & HD).
  unfold greedy_distribution. rewrite Heq.
  apply (foldl_serve_actions _ donors); [|done|constructor].
  intros itype donor_az recepient_az d move_count Hin [v Hv]. simpl.
  apply elem_of_map_to_list, HR in Hin as [Hd ?].
  apply HD in Hv as [Hv ?]. unfold get. rewrite Hd, Hv. simpl. lia.
Qed.

Lemma greedy_distribution_maximal (mismatch : inventory) itype source_az dest_az :
  moved_from (greedy_distribution mismatch) (itype, source_az)
  = surplus mismatch (itype, source_az)
  ∨ moved_into (greedy_distribution mismatch) (itype, dest_az)
    = deficit mismatch (itype, dest_az).
Proof.
  destruct (separate_items mismatch) as (recepients & donors & Heq & HR & HD).
  unfold greedy_distribution. rewrite Heq.
  assert (Hneg : ∀ k d, (k, d) ∈ map_to_list recepients → d < 0).
  { intros k d Hin. by apply elem_of_map_to_list, HR in Hin as [_ ?]. }
  assert (Hpos : all_positive donors).
  { intros k c Hc. by apply HD in Hc as [_ ?]. }
  destruct (foldl_serve (map_to_list recepients)
              (NoDup_fst_map_to_list recepients) Hneg donors [] Hpos)
    as (C & P & _ & _).
  destruct (foldl_serve_maximal (map_to_list recepients)
              (NoDup_fst_map_to_list recepients) Hneg donors [] Hpos)
    as (O & M).
  unfold items. simpl in *.
  assert (Hsur : get donors (itype, source_az)
                 = surplus mismatch (itype, source_az)).
  { unfold surplus, get.
    destruct (donors !! (itype, source_az)) as [v|] eqn:E.
    - apply HD in E as [-> ?]. simpl. lia.
    - destruct (mismatch !! (itype, source_az)) as [v|] eqn:Em; simpl; [|done].
      destruct (decide (0 < v)) as [Hv|Hv]; [|lia].
      assert (donors !! (itype, source_az) = Some v) as Hc by by apply HD.
      congruence. }
  destruct (recepients !! (itype, dest_az)) as [d|] eqn:Er.
  - pose proof Er as Er'. apply HR in Er' as [Hm Hd].
    destruct (M itype dest_az d) as [Hfull|Hgone].
    { by apply elem_of_map_to_list. }
    + right. rewrite Hfull. unfold deficit, get. rewrite Hm.
      simpl. lia.
    + left. specialize (C (itype, source_az)).
      unfold get at 1 in C. rewrite Hgone in C. simpl in C. lia.
  - right. rewrite O.
    + unfold deficit, get. simpl.
      destruct (mismatch !! (itype, dest_az)) as [v|] eqn:Em; simpl; [|done].
      destruct (decide (v < 0)) as [Hv|Hv]; [|lia].
      assert (recepients !! (itype, dest_az) = Some v) as Hc by by apply HR.
      congruence.
    + intros Hin. apply list_elem_of_fmap in Hin as ([k v] & Hk & Hin).
      simpl in Hk. subst k. apply elem_of_map_to_list in Hin. congruence.
Qed.

Lemma greedy_distribution_counts (mismatch : inventory) :
  Forall (λ a : action, 0 < a.2) (greedy_distribution mismatch).
Proof.
  destruct (separate_items mismatch) as (recepients & donors & Heq & HR & HD).
  unfold greedy_distribution. rewrite Heq.
  assert (Hneg : ∀ k d, (k, d) ∈ map_to_list recepients → d < 0).
  { intros k d Hin. by apply elem_of_map_to_list, HR in Hin as [_ ?]. }
  assert (Hpos : all_positive donors).
  { intros k c Hc. by apply HD in Hc as [_ ?]. }
  destruct (foldl_serve (map_to_list recepients)
              (NoDup_fst_map_to_list recepients) Hneg donors [] Hpos)
    as (_ & _ & F & _).
  apply F. constructor.
Qed.

(** X8: every action of the greedy plan moves a positive count of one
    instance type from a zone where the mismatch shows a surplus of it
    to a zone where the mismatch shows a deficit of it; the two zones
    differ. *)
Theorem greedy_distribution_moves_surplus_to_deficit (mismatch : inventory) :
  Forall (λ a : action,
            0 < get mismatch (a.1.1.1, a.1.1.2)
            ∧ get mismatch (a.1.1.1, a.1.2) < 0
            ∧ a.1.1.2 ≠ a.1.2 ∧ 0 < a.2)
         (greedy_distribution mismatch).
Proof.
  pose proof (greedy_distribution_actions mismatch) as Hact.
  pose proof (greedy_distribution_counts mismatch) as Hcnt.
  rewrite Forall_forall in *. intros a Ha.
  destruct (Hact a Ha) as [Hs Hd].
  split; [done|]. split; [done|]. split.
  - intros Heq. rewrite Heq in Hs. lia.
  - by apply Hcnt.
Qed.

Lemma moved_from_nonneg (plan : list action) k :
  Forall (λ a : action, 0 < a.2) plan → 0 ≤ moved_from plan k.
Proof.
  unfold moved_from. induction 1 as [|a l Ha _ IH]; simpl; [lia|].
  case_decide; lia.
Qed.

Lemma greedy_distribution_from_bound (mismatch : inventory) k :
  moved_from (greedy_distribution mismatch) k ≤ surplus mismatch k.
Proof.
  destruct (separate_items mismatch) as (recepients & donors & Heq & HR & HD).
  unfold greedy_distribution. rewrite Heq.
  assert (Hneg : ∀ k d, (k, d) ∈ map_to_list recepients → d < 0).
  { intros k' d Hin. by apply elem_of_map_to_list, HR in Hin as [_ ?]. }
  assert (Hpos : all_positive donors).
  { intros k' c Hc. by apply HD in Hc as [_ ?]. }
  destruct (foldl_serve (map_to_list recepients)
              (NoDup_fst_map_to_list recepients) Hneg donors [] Hpos)
    as (C & P & _ & _).
  specialize (C k). pose proof (get_nonneg _ k P) as Hge.
  unfold items. simpl in *.
  assert (get donors k ≤ surplus mismatch k); [|lia].
  unfold surplus, get. destruct (donors !! k) as [v|] eqn:E; simpl; [|lia].
  apply HD in E as [-> ?]. simpl. lia.
Qed.

(** X9: the greedy plan is maximal for every instance type: it either
    moves out the whole surplus of every zone, or covers the whole
    deficit of every zone.  No zone is left short of a type while
    another zone still has a surplus of it. *)
Theorem greedy_distribution_exhausts_surplus_or_deficit
    (mismatch : inventory) (itype : string) :
  let plan := greedy_distribution mismatch in
  (∀ source_az, moved_from plan (itype, source_az)
                = surplus mismatch (itype, source_az))
  ∨ (∀ dest_az, moved_into plan (itype, dest_az)
                = deficit mismatch (itype, dest_az)).
Proof.
  simpl.
  set (drained := λ kv : itype_and_az * Z,
         kv.1.1 = itype →
         moved_from (greedy_distribution mismatch) kv.1 = surplus mismatch kv.1).
  destruct (decide (Forall drained (map_to_list mismatch))) as [Hall|Hnot].
  - left. intros source_az.
    destruct (mismatch !! (itype, source_az)) as [v|] eqn:E.
    + rewrite Forall_forall in Hall.
      apply (Hall ((itype, source_az), v)); [|done].
      by apply elem_of_map_to_list.
    + pose proof (greedy_distribution_from_bound mismatch (itype, source_az))
        as Hle.
      pose proof (moved_from_nonneg _ (itype, source_az)
                    (greedy_distribution_counts mismatch)) as Hge.
      unfold surplus, get in *. rewrite E in *. simpl in *. lia.
  - right. intros dest_az.
    apply not_Forall_Exists in Hnot; [|intros kv; apply _].
    apply Exists_exists in Hnot as ([[t s] v] & _ & Hk).
    unfold drained in Hk. simpl in Hk.
    destruct (decide (t = itype)) as [->|Hne]; [|exfalso; tauto].
    destruct (greedy_distribution_maximal mismatch itype s dest_az)
      as [Hs|Hd]; [|done].
    exfalso. apply Hk. by intros _.
Qed.

(** X10: the greedy plan is empty exactly when no instance type has at
    once a zone with a surplus and a zone with a deficit. *)
Theorem greedy_distribution_empty_iff (mismatch : inventory) :
  greedy_distribution mismatch = []
  ↔ ¬ ∃ itype source_az dest_az,
        0 < get mismatch (itype, source_az)
        ∧ get mismatch (itype, dest_az) < 0.
Proof.
  split.
  - intros Hnil (itype & source_az & dest_az & Hs & Hd).
    destruct (greedy_distribution_maximal mismatch itype source_az dest_az)
      as [H|H]; rewrite Hnil in H; unfold moved_from, moved_into in H;
      simpl in H; unfold surplus, deficit in H; lia.
  - intros Hno.
    pose proof (greedy_distribution_actions mismatch) as Hact.
    destruct (greedy_distribution mismatch) as [|a plan]; [done|].
    apply Forall_cons in Hact as [[Hs Hd] _].
    exfalso. apply Hno. by exists a.1.1.1, a.1.1.2, a.1.2.
Qed.

(** X11: the plan that [riptimize] makes from the clean mismatch moves
    reservations between supported zones only. *)
Theorem greedy_distribution_in_supported_zones
    (mismatch : inventory) (zones : list string) :
  Forall (λ a : action, a.1.1.2 ∈ zones ∧ a.1.2 ∈ zones)
         (greedy_distribution (eliminate_unsupported_zones mismatch zones).1).
Proof.
  eapply Forall_impl; [apply greedy_distribution_actions|].
  intros a [Hs Hd]. unfold get in Hs, Hd. rewrite !clean_lookup in Hs, Hd.
  simpl in Hs, Hd. split.
  - destruct (decide (a.1.1.2 ∈ zones)); [done|]. simpl in Hs. lia.
  - destruct (decide (a.1.2 ∈ zones)); [done|]. simpl in Hd. lia.
Qed.

(** ** More on the plan executor *)

Lemma configure_Some groups key (batch : list move_descriptor) :
  ∀ configs current result,
    configure groups key batch configs current = Some result →
    batch_of groups key batch.
Proof.
  induction batch as [|[[ref dest_az] mc] batch IH];
    intros configs current result Hrun d Hd.
  - by apply elem_of_nil in Hd.
  - cbn [configure] in Hrun.
    destruct (groups !! ref) as [g|] eqn:Hg; [|done]. simpl in Hrun.
    destruct (decide (id g = key)) as [Hid|Hid]; [|done].
    apply elem_of_cons in Hd as [->|Hd].
    + exists g. done.
    + eapply IH; [exact Hrun | done].
Qed.

Section Requests.

Variable modify_reserved_instances : request → string.
Variable time_time : nat → string.

(** X12: [move_reserved_instances] passes its assertions exactly for a
    list of descriptors that is not empty and whose donor groups all
    have one id; for the empty list, or for groups of two ids, it
    raises. *)
Theorem move_reserved_instances_asserts
    (groups : list ReservedInstance) (conn : list request)
    (batch : list move_descriptor) (optimize : bool) :
  is_Some (move_reserved_instances modify_reserved_instances time_time
             groups conn batch optimize)
  ↔ batch ≠ [] ∧ ∃ key, batch_of groups key batch.
Proof.
  unfold move_reserved_instances. split.
  - intros [result Hrun].
    destruct (build_target_configurations groups batch) as [[key configs]|]
      eqn:Hbuild; [|done].
    clear Hrun. unfold build_target_configurations in Hbuild.
    destruct batch as [|first rest] eqn:E; [done|]. rewrite <- E in *.
    split; [by rewrite E|].
    assert (Hhead : head batch = Some first) by by rewrite E.
    rewrite Hhead in Hbuild. simpl in Hbuild.
    destruct (groups !! first.1.1) as [fg|]; [|done]. simpl in Hbuild.
    destruct (configure groups (id fg) batch [] None) as [r|] eqn:Hc; [|done].
    exists (id fg). by eapply configure_Some.
  - intros (Hne & key & Hof).
    destruct (build_target_configurations_spec groups key batch Hne Hof)
      as (d & g & _ & _ & _ & ->).
    simpl. destruct optimize; eauto.
Qed.

(** X13: every request that [execute_plan] sends in live mode names one
    reservation group and carries at least one target configuration;
    every configuration has a positive instance count and the platform
    EC2-VPC. *)
Theorem execute_plan_requests_well_formed ri_groups plan :
  ∃ conn,
    execute_plan modify_reserved_instances time_time ri_groups plan true
    = Some (modify_reserved_instances <$> conn, conn)
    ∧ Forall (λ r, ∃ key, reserved_instance_ids r = [key]
                          ∧ target_configurations r ≠ []
                          ∧ Forall (λ c, 0 < cfg_instance_count c
                                         ∧ cfg_platform c = "EC2-VPC")
                                   (target_configurations r))
             conn.
Proof.
  pose proof (batches_batched ri_groups plan) as Hb.
  destruct (execute_plan_result modify_reserved_instances time_time
              ri_groups plan true) as (built & HF & ->).
  eexists. split; [done|].
  apply (sent_Forall time_time
           (λ _ configs, configs ≠ []
                         ∧ Forall (λ c, 0 < cfg_instance_count c
                                        ∧ cfg_platform c = "EC2-VPC") configs)).
  eapply Forall2_Forall_r; [exact HF|].
  apply Forall_forall. intros [key batch] Hin [k configs] [_ Hbuilt].
  simpl in *. apply elem_of_map_to_list in Hin.
  destruct (batched_batch_of _ _ _ _ _ Hb Hin) as (Hne & Hof & Hpos).
  destruct (build_target_configurations_spec _ key batch Hne Hof)
    as (d & g & _ & _ & _ & Hbuild).
  rewrite Hbuild in Hbuilt. injection Hbuilt as _ <-. split.
  - destruct batch; [done|]. done.
  - apply Forall_app. split.
    + apply Forall_fmap. eapply Forall_impl; [exact Hpos|]. done.
    + unfold remainder_configuration. case_decide; repeat constructor; done.
Qed.

End Requests.

Lemma apply_action_others groups modifications (a : action) i g :
  groups !! i = Some g →
  (a.1.1.1, a.1.1.2) ≠ (instance_type g, availability_zone g) →
  (apply_action (groups, modifications) a).1 !! i = Some g.
Proof.
  intros Hg Hkey. destruct a as [[[itype source_az] dest_az] count].
  simpl in *. rewrite consume_others; [done|].
  intros Hin. apply select_donor_groups_elem in Hin as (g' & Hg' & Hd).
  assert (g' = g) as -> by congruence.
  unfold is_donor in Hd. apply andb_prop in Hd as [Hd _].
  apply andb_prop in Hd as [Ht Hz].
  apply bool_decide_eq_true in Ht, Hz. congruence.
Qed.

Lemma foldl_apply_action_others (plan : list action) :
  ∀ groups modifications i g,
    groups !! i = Some g →
    Forall (λ a : action,
              (a.1.1.1, a.1.1.2) ≠ (instance_type g, availability_zone g))
           plan →
    (foldl apply_action (groups, modifications) plan).1 !! i = Some g.
Proof.
  induction plan as [|a plan IH]; intros groups mods i g Hg Hall; [done|].
  apply Forall_cons in Hall as [Ha Hall].
  change (foldl apply_action (groups, mods) (a :: plan))
    with (foldl apply_action (apply_action (groups, mods) a) plan).
  pose proof (apply_action_others groups mods a i g Hg Ha) as Hg1.
  destruct (apply_action (groups, mods) a) as [groups1 mods1].
  by apply IH.
Qed.

(** X14: the first loop of [execute_plan] keeps every group in its
    place, with its id, type and zone; it never raises an instance count
    and never takes a count that is not negative below 0; and it leaves
    alone every group whose type and zone are not the source of an
    action of the plan. *)
Theorem batches_groups_after ri_groups plan i g :
  ri_groups !! i = Some g →
  ∃ g', (batches ri_groups plan).1 !! i = Some g'
        ∧ id g' = id g ∧ instance_type g' = instance_type g
        ∧ availability_zone g' = availability_zone g
        ∧ instance_count g' ≤ instance_count g
        ∧ (0 ≤ instance_count g → 0 ≤ instance_count g')
        ∧ (Forall (λ a : action,
                     (a.1.1.1, a.1.1.2)
                     ≠ (instance_type g, availability_zone g)) plan →
           g' = g).
Proof.
  intros Hg.
  destruct (moved_out_capacity ri_groups plan i g Hg)
    as (g' & Hg' & Hout & Hge & Hle).
  pose proof (batches_batched ri_groups plan) as [L S C R F N].
  destruct (S i g g' Hg Hg') as (Hid & Hty & Haz).
  exists g'. repeat (split; [done|]). split; [lia|]. split; [lia|].
  intros Hall. unfold batches in Hg'.
  rewrite (foldl_apply_action_others plan ri_groups ∅ i g Hg Hall) in Hg'.
  congruence.
Qed.

Lemma batches_groups_after_witness :
  ∃ g', (batches
           [ {| id := "ri-1"; instance_type := "m4.large";
                availability_zone := "us-east-1a"; instance_count := 4 |};
             {| id := "ri-2"; instance_type := "c4.large";
                availability_zone := "us-east-1a"; instance_count := 5 |} ]
           [("m4.large", "us-east-1a", "us-east-1b", 3)]).1 !! 1%nat = Some g'
        ∧ instance_count g' ≤ 5.
Proof.
  destruct (batches_groups_after
              [ {| id := "ri-1"; instance_type := "m4.large";
                   availability_zone := "us-east-1a"; instance_count := 4 |};
                {| id := "ri-2"; instance_type := "c4.large";
                   availability_zone := "us-east-1a"; instance_count := 5 |} ]
              [("m4.large", "us-east-1a", "us-east-1b", 3)] 1%nat
              {| id := "ri-2"; instance_type := "c4.large";
                 availability_zone := "us-east-1a"; instance_count := 5 |}
              eq_refl)
    as (g' & Hg' & _ & _ & _ & Hle & _).
  exists g'. split; [exact Hg' | exact Hle].
Defined.

(** ** More on [riptimize] *)

Section Run.

Variable modify_reserved_instances : request → string.
Variable time_time : nat → string.

(** X15: [riptimize] always returns: the assertions of the executor
    never fail on the batches it forms.  It sends a request only when
    [optimize] is set and no earlier modification is processing, and
    with an empty plan it does not call the executor: no modification
    id, no request. *)
Theorem riptimize_returns
    (by_account : gmap string inventory) (reserved : inventory)
    (zones processing : list string) (ri_groups : list ReservedInstance)
    (optimize : bool) :
  ∃ result conn,
    riptimize modify_reserved_instances time_time by_account reserved zones
              processing ri_groups optimize
    = Some (result, conn)
    ∧ (conn ≠ [] → optimize = true ∧ processing = [])
    ∧ (plan result = [] → modification_ids result = [] ∧ conn = [])
    ∧ length (modification_ids result)
      = (if decide (plan result = []) then 0%nat
         else size (batches ri_groups (plan result)).2).
Proof.
  unfold riptimize. cbv zeta.
  destruct (eliminate_unsupported_zones
              (compute_ri_mistmatch reserved (aggregate_inventory by_account))
              zones) as [clean eliminated].
  set (live := optimize
               && negb (negb (bool_decide (length processing = 0%nat)))).
  assert (Hlive : live = true → optimize = true ∧ processing = []).
  { unfold live. intros [Ho Hp]%andb_prop. split; [done|].
    rewrite negb_involutive in Hp. apply bool_decide_eq_true in Hp.
    by apply nil_length_inv. }
  clearbody live.
  destruct (decide (0 < length (greedy_distribution clean))%nat) as [Hlen|Hlen].
  - destruct (execute_plan_result modify_reserved_instances time_time
                ri_groups (greedy_distribution clean) live)
      as (built & HF & Hrun).
    rewrite Hrun.
    apply Forall2_length in HF. rewrite length_map_to_list in HF.
    assert (Hne : greedy_distribution clean ≠ [])
      by (intros Hnil; rewrite Hnil in Hlen; simpl in Hlen; lia).
    destruct live; simpl; eexists _, _; (split; [done|]); simpl.
    + split; [by intros _; apply Hlive|]. split; [done|].
      rewrite decide_False by done.
      by rewrite length_fmap, length_sent.
    + split; [done|]. split; [done|].
      rewrite decide_False by done. by rewrite length_replicate.
  - assert (Hnil : greedy_distribution clean = []).
    { destruct (greedy_distribution clean); [done|]. simpl in Hlen. lia. }
    simpl. eexists _, _. split; [done|]. simpl.
    split; [done|]. split; [done|]. by rewrite decide_True.
Qed.

End Run.

(** ** The plan of [riptimize] fits the groups *)

Lemma remaining_capacity_perm groups refs1 refs2 :
  refs1 ≡ₚ refs2 →
  remaining_capacity groups refs1 = remaining_capacity groups refs2.
Proof.
  unfold remaining_capacity.
  induction 1 as [|x l1 l2 _ IH|x y l|l1 l2 l3 _ IH1 _ IH2]; simpl.
  - done.
  - by rewrite IH.
  - destruct (groups !! x), (groups !! y); lia.
  - by rewrite IH1.
Qed.

(** Groups that hold nothing do not count. *)
Lemma remaining_capacity_holding groups refs :
  (∀ ref g, ref ∈ refs → groups !! ref = Some g → 0 ≤ instance_count g) →
  remaining_capacity groups (filter (λ ref, holds_at groups ref = true) refs)
  = remaining_capacity groups refs.
Proof.
  induction refs as [|ref refs IH]; intros H.
  - done.
  - rewrite filter_cons.
    assert (IH' := IH (λ r g Hr, H r g (list_elem_of_further _ _ _ Hr))).
    change (remaining_capacity groups (ref :: refs))
      with (match groups !! ref with
            | Some g => instance_count g + remaining_capacity groups refs
            | None => remaining_capacity groups refs
            end).
    case_decide as Hb.
    + change (remaining_capacity groups (ref :: ?l))
        with (match groups !! ref with
              | Some g => instance_count g + remaining_capacity groups l
              | None => remaining_capacity groups l
              end).
      by rewrite IH'.
    + rewrite IH'. unfold holds_at in Hb.
      destruct (groups !! ref) as [g|] eqn:E; [|done].
      specialize (H ref g (list_elem_of_here _ _) E).
      apply not_true_is_false in Hb. apply bool_decide_eq_false in Hb. lia.
Qed.

(** What the while loop does to the groups it is given and to the
    others. *)
Lemma consume_groups refs : ∀ dest_az count groups modifications,
  NoDup refs → all_available groups refs →
  ∀ i g, groups !! i = Some g →
    ∃ g', (consume refs dest_az count groups modifications).1 !! i = Some g'
          ∧ instance_type g' = instance_type g
          ∧ availability_zone g' = availability_zone g
          ∧ (i ∈ refs → 0 ≤ instance_count g')
          ∧ (i ∉ refs → g' = g).
Proof.
  induction refs as [|ref refs IH];
    intros dest_az count groups mods Hnd Hav i g Hg.
  - exists g. cbn [consume fst]. repeat (split; [done|]).
    split; [|done]. intros Hin. by apply elem_of_nil in Hin.
  - rewrite consume_cons.
    destruct (Hav ref) as (dg & Hdg & Hpos); [left|].
    case_decide as Hcount.
    2:{ exists g. cbn [fst]. repeat (split; [done|]). split; [|done].
        intros Hin. destruct (Hav i Hin) as (g2 & Hg2 & Hpos2).
        assert (g2 = g) as -> by congruence. lia. }
    pose proof Hnd as Hnd'. apply NoDup_cons in Hnd' as [Hfresh Hnd'].
    rewrite Hdg. cbv zeta.
    set (mc := Z.min count (instance_count dg)).
    set (groups1 := <[ref := set_instance_count dg (instance_count dg - mc)]>
                      groups).
    set (mods1 := record_move mods (id dg) (ref, dest_az, mc)).
    assert (Hav1 : all_available groups1 refs) by by eapply all_available_tail.
    assert (Hlt : (ref < length groups)%nat) by by eapply lookup_lt_Some.
    destruct (decide (i = ref)) as [->|Hne].
    + assert (g = dg) as -> by congruence.
      exists (set_instance_count dg (instance_count dg - mc)).
      rewrite consume_others by done. unfold groups1.
      rewrite list_lookup_insert_eq by done. cbn.
      repeat (split; [done|]). split; [unfold mc; lia|].
      intros Hout. exfalso. apply Hout. left.
    + destruct (IH dest_az (count - mc) groups1 mods1 Hnd' Hav1 i g)
        as (g' & Hg' & Hty & Haz & Hge & Hsame).
      { unfold groups1. by rewrite list_lookup_insert_ne. }
      exists g'. repeat (split; [done|]). split.
      * intros Hin. apply Hge. apply elem_of_cons in Hin as [?|?]; done.
      * intros Hout. apply Hsame. intros Hin. apply Hout. by right.
Qed.

Lemma consume_length refs : ∀ dest_az count groups modifications,
  length (consume refs dest_az count groups modifications).1 = length groups.
Proof.
  induction refs as [|ref refs IH]; intros dest_az count groups mods.
  - done.
  - rewrite consume_cons. case_decide; [|done].
    destruct (groups !! ref) as [dg|]; [|done].
    cbv zeta. rewrite IH. apply length_insert.
Qed.

Lemma is_donor_spec itype source_az g :
  is_donor itype source_az g = true
  ↔ instance_type g = itype ∧ availability_zone g = source_az
    ∧ 0 < instance_count g.
Proof.
  unfold is_donor. rewrite !andb_true_iff, !bool_decide_eq_true. tauto.
Qed.

(** An action takes its count, or all there is, out of the capacity of
    its source, and leaves the capacity of every other pair of type and
    zone as it was. *)
Lemma apply_action_key_capacity groups modifications (a : action) k :
  key_capacity (apply_action (groups, modifications) a).1 k
  = if decide ((a.1.1.1, a.1.1.2) = k)
    then key_capacity groups k - Z.min (Z.max 0 a.2) (key_capacity groups k)
    else key_capacity groups k.
Proof.
  destruct a as [[[itype source_az] dest_az] count]. destruct k as [kt ks].
  cbn [fst snd]. unfold key_capacity. cbn [fst snd].
  change (apply_action (groups, modifications)
                       (itype, source_az, dest_az, count))
    with (consume (select_donor_groups groups itype source_az) dest_az count
                  groups modifications).
  set (refs := select_donor_groups groups itype source_az).
  assert (Hnd : NoDup refs) by apply select_donor_groups_NoDup.
  assert (Hav : all_available groups refs)
    by apply select_donor_groups_available.
  pose proof (consume_groups refs dest_az count groups modifications Hnd Hav)
    as Hgr.
  pose proof (consume_length refs dest_az count groups modifications) as Hlen.
  pose proof (consume_capacity refs dest_az count groups modifications Hnd Hav)
    as Hcap.
  set (groups1 := (consume refs dest_az count groups modifications).1) in *.
  assert (Hback : ∀ i g1, groups1 !! i = Some g1 →
                          ∃ g, groups !! i = Some g).
  { intros i g1 Hg1. apply lookup_lt_is_Some. rewrite <- Hlen.
    by eapply lookup_lt_Some. }
  case_decide as Hk.
  - injection Hk as <- <-. fold refs. rewrite <- Hcap.
    rewrite <- (remaining_capacity_holding groups1 refs).
    2:{ intros ref g1 Href Hg1. destruct (Hback _ _ Hg1) as [g Hg].
        destruct (Hgr ref g Hg) as (g' & Hg' & _ & _ & Hge & _).
        assert (g' = g1) as -> by congruence. by apply Hge. }
    apply remaining_capacity_perm. apply NoDup_Permutation.
    + apply select_donor_groups_NoDup.
    + by apply NoDup_filter.
    + intros i. rewrite select_donor_groups_elem, list_elem_of_filter. split.
      * intros (g1 & Hg1 & Hd). destruct (Hback _ _ Hg1) as [g Hg].
        destruct (Hgr i g Hg) as (g' & Hg' & Hty & Haz & _ & Hsame).
        assert (g' = g1) as -> by congruence.
        apply is_donor_spec in Hd as (Ht & Hs & Hpos).
        assert (Hin : i ∈ refs).
        { destruct (decide (i ∈ refs)) as [|Hout]; [done|].
          apply Hsame in Hout as ->. apply select_donor_groups_elem.
          exists g. split; [done|]. by apply is_donor_spec. }
        split; [|done]. unfold holds_at. rewrite Hg1.
        by apply bool_decide_eq_true.
      * intros [Hh Hin]. pose proof Hin as Hin'.
        apply select_donor_groups_elem in Hin' as (g & Hg & Hd).
        destruct (Hgr i g Hg) as (g' & Hg' & Hty & Haz & _ & _).
        exists g'. split; [done|]. unfold holds_at in Hh. rewrite Hg' in Hh.
        apply bool_decide_eq_true in Hh.
        apply is_donor_spec in Hd as (Ht & Hs & _).
        apply is_donor_spec. by rewrite Hty, Haz.
  - assert (Hmiss : ∀ i g, groups !! i = Some g →
                           instance_type g = kt → availability_zone g = ks →
                           i ∉ refs).
    { intros i g Hg Ht Hs Hin.
      apply select_donor_groups_elem in Hin as (g2 & Hg2 & Hd).
      assert (g2 = g) as -> by congruence.
      apply is_donor_spec in Hd as (Ht' & Hs' & _). apply Hk. congruence. }
    rewrite (remaining_capacity_perm groups1 _
               (select_donor_groups groups kt ks)).
    + apply remaining_capacity_ext. intros ref Href.
      apply select_donor_groups_elem in Href as (g & Hg & Hd).
      apply is_donor_spec in Hd as (Ht & Hs & _).
      unfold groups1. apply consume_others. by eapply Hmiss.
    + apply NoDup_Permutation; [apply select_donor_groups_NoDup ..|].
      intros i. rewrite !select_donor_groups_elem. split.
      * intros (g1 & Hg1 & Hd). destruct (Hback _ _ Hg1) as [g Hg].
        destruct (Hgr i g Hg) as (g' & Hg' & Hty & Haz & _ & Hsame).
        assert (g' = g1) as -> by congruence.
        pose proof Hd as Hd'. apply is_donor_spec in Hd' as (Ht & Hs & _).
        assert (Hout : i ∉ refs) by (eapply Hmiss; [done|congruence..]).
        apply Hsame in Hout as ->. by exists g.
      * intros (g & Hg & Hd).
        pose proof Hd as Hd'. apply is_donor_spec in Hd' as (Ht & Hs & _).
        assert (Hout : i ∉ refs) by by eapply Hmiss.
        destruct (Hgr i g Hg) as (g' & Hg' & _ & _ & _ & Hsame).
        apply Hsame in Hout as ->. by exists g.
Qed.

Lemma apply_action_total groups modifications (a : action) :
  all_moves (apply_action (groups, modifications) a).2
  = all_moves modifications
    + Z.min (Z.max 0 a.2) (key_capacity groups (a.1.1.1, a.1.1.2)).
Proof.
  destruct a as [[[itype source_az] dest_az] count].
  apply consume_total.
  - apply select_donor_groups_NoDup.
  - apply select_donor_groups_available.
Qed.

Lemma key_capacity_nonneg groups k : 0 ≤ key_capacity groups k.
Proof.
  apply remaining_capacity_nonneg, select_donor_groups_available.
Qed.

(** A plan that fits the groups is carried out in full. *)
Lemma foldl_apply_action_fits (plan : list action) :
  ∀ groups modifications,
    Forall (λ a : action, 0 < a.2) plan →
    (∀ k, moved_from plan k ≤ key_capacity groups k) →
    all_moves (foldl apply_action (groups, modifications) plan).2
    = all_moves modifications + plan_total plan
    ∧ ∀ k, key_capacity (foldl apply_action (groups, modifications) plan).1 k
           = key_capacity groups k - moved_from plan k.
Proof.
  induction plan as [|a plan IH]; intros groups mods Hpos Hfit.
  - split.
    + change (all_moves mods = all_moves mods + 0). lia.
    + intros k. change (key_capacity groups k = key_capacity groups k - 0).
      lia.
  - apply Forall_cons in Hpos as [Ha Hpos].
    pose proof (moved_from_nonneg plan) as Hnn.
    assert (Hcons : ∀ k, moved_from (a :: plan) k
                         = if decide ((a.1.1.1, a.1.1.2) = k)
                           then a.2 + moved_from plan k
                           else moved_from plan k) by done.
    pose proof (apply_action_key_capacity groups mods a) as Hcap.
    pose proof (apply_action_total groups mods a) as Htot.
    cbn [foldl].
    destruct (apply_action (groups, mods) a) as [groups1 mods1].
    cbn [fst snd] in Hcap, Htot.
    assert (Hsrc : a.2 ≤ key_capacity groups (a.1.1.1, a.1.1.2)).
    { specialize (Hfit (a.1.1.1, a.1.1.2)). rewrite Hcons in Hfit.
      rewrite decide_True in Hfit by done.
      specialize (Hnn (a.1.1.1, a.1.1.2) Hpos). lia. }
    destruct (IH groups1 mods1 Hpos) as [IHt IHc].
    { intros k. rewrite Hcap. specialize (Hfit k). rewrite Hcons in Hfit.
      case_decide as Hk; [|done]. subst k. lia. }
    split.
    + rewrite IHt, Htot. cbn [plan_total foldr].
      change (foldr _ 0 plan) with (plan_total plan). lia.
    + intros k. rewrite IHc, Hcap, Hcons.
      case_decide as Hk; [|done]. subst k. lia.
Qed.

(** X16: When every count of a plan is positive and the plan takes out
    of no pair of type and zone more than the donor groups of the pair
    hold, the first loop of [execute_plan] creates move descriptors for
    every unit of every action, nothing is dropped, and the groups of
    each pair are left with what they held minus what the plan took. *)
Theorem execute_plan_moves_all_that_fits ri_groups plan :
  Forall (λ a : action, 0 < a.2) plan →
  (∀ k, moved_from plan k ≤ key_capacity ri_groups k) →
  all_moves (batches ri_groups plan).2 = plan_total plan
  ∧ ∀ k, key_capacity (batches ri_groups plan).1 k
         = key_capacity ri_groups k - moved_from plan k.
Proof.
  intros Hpos Hfit.
  destruct (foldl_apply_action_fits plan ri_groups ∅ Hpos Hfit) as [Ht Hc].
  split; [|done]. unfold batches. rewrite Ht. done.
Qed.

Lemma execute_plan_moves_all_that_fits_witness :
  let ri_groups :=
    [ {| id := "ri-1"; instance_type := "m4.large";
         availability_zone := "us-east-1a"; instance_count := 4 |};
      {| id := "ri-2"; instance_type := "m4.large";
         availability_zone := "us-east-1a"; instance_count := 5 |} ] in
  let plan := [("m4.large", "us-east-1a", "us-east-1b", 6);
               ("m4.large", "us-east-1a", "us-east-1c", 1)] in
  all_moves (batches ri_groups plan).2 = 7.
Proof.
  intros ri_groups plan.
  refine (proj1 (execute_plan_moves_all_that_fits ri_groups plan _ _)).
  - repeat constructor.
  - intros k. destruct (decide (("m4.large", "us-east-1a") = k)) as [<-|Hne].
    + by_compute.
    + unfold plan, moved_from. cbn [foldr fst snd].
      rewrite !decide_False by done. apply key_capacity_nonneg.
Defined.

(** ** The inventories of a whole run *)

Lemma get_foldl_add_count (l : list (itype_and_az * Z)) k :
  get (foldl add_count ∅ l) k = entries_total k l.
Proof.
  unfold get at 1. rewrite foldl_add_count_lookup.
  unfold get. rewrite lookup_empty. case_decide as Hin; simpl; [lia|].
  by rewrite entries_total_absent.
Qed.

Lemma foldl_count_instance (running : list Instance.t) :
  ∀ acc, foldl count_instance acc running
         = foldl add_count acc
             ((λ i, ((Instance.instance_type i, Instance.placement i), 1))
                <$> running).
Proof.
  induction running as [|i running IH]; intros acc; [done|].
  simpl. by rewrite IH.
Qed.

Lemma get_account_i_inventory_nonneg (running : list Instance.t) k :
  0 ≤ get (get_account_i_inventory running) k.
Proof.
  unfold get_account_i_inventory.
  rewrite foldl_count_instance, get_foldl_add_count, entries_total_ones. lia.
Qed.

Lemma total_nonneg (l : list Z) : Forall (λ x, 0 ≤ x) l → 0 ≤ total l.
Proof.
  induction 1 as [|x l Hx _ IH]; [done|].
  change (total (x :: l)) with (x + total l). lia.
Qed.

(** A loop that stores one value per entry of [d.items()]. *)
Lemma foldl_insert_lookup {A B} (f : A → B) (l : list (string * A)) :
  NoDup l.*1 →
  ∀ (acc : gmap string B) a,
    foldl (λ m (e : string * A), <[e.1 := f e.2]> m) acc l !! a
    = match (list_to_map l : gmap string A) !! a with
      | Some c => Some (f c)
      | None => acc !! a
      end.
Proof.
  induction l as [|[k c] l IH]; intros Hnd acc a.
  - done.
  - rewrite fmap_cons in Hnd. apply NoDup_cons in Hnd as [Hfresh Hnd].
    cbn [foldl fst snd list_to_map foldr]. rewrite (IH Hnd).
    change (foldr (λ p, <[p.1:=p.2]>) ∅ l) with (list_to_map l : gmap string A).
    destruct (decide (a = k)) as [->|Hne].
    + rewrite (not_elem_of_list_to_map_1 _ _ Hfresh).
      by rewrite !lookup_insert_eq.
    + by rewrite !lookup_insert_ne.
Qed.

Lemma get_i_inventory_by_account_fmap
    (get_only_instances : string * string → list Instance.t)
    (all_accounts : gmap string (string * string)) :
  get_i_inventory_by_account get_only_instances all_accounts
  = (λ credentials, get_account_i_inventory (get_only_instances credentials))
      <$> all_accounts.
Proof.
  apply map_eq. intros a. unfold get_i_inventory_by_account, items.
  rewrite (foldl_insert_lookup
             (λ credentials,
                get_account_i_inventory (get_only_instances credentials)))
    by apply NoDup_fst_map_to_list.
  rewrite list_to_map_to_list, lookup_fmap, lookup_empty.
  by destruct (all_accounts !! a).
Qed.

(** X17: [get_i_inventory_by_account] gives every account of
    [all_accounts] the inventory of the instances that EC2 reports for
    the credentials of that account, and has no entry for any other
    account. *)
Theorem get_i_inventory_by_account_lookup
    (get_only_instances : string * string → list Instance.t)
    (all_accounts : gmap string (string * string)) (account_id : string) :
  get_i_inventory_by_account get_only_instances all_accounts !! account_id
  = match all_accounts !! account_id with
    | Some credentials =>
      Some (get_account_i_inventory (get_only_instances credentials))
    | None => None
    end.
Proof.
  rewrite get_i_inventory_by_account_fmap, lookup_fmap.
  by destruct (all_accounts !! account_id).
Qed.

(** The capacity of a pair of type and zone is the sum of the counts of
    the groups of the pair that hold something. *)
Lemma select_from_capacity itype source_az (l : list ReservedInstance) :
  ∀ pre,
    remaining_capacity (pre ++ l)
      (filter (λ ig : nat * ReservedInstance, is_donor itype source_az ig.2)
              (imap (λ i g, ((length pre + i)%nat, g)) l)).*1
    = donors_total itype source_az l.
Proof.
  induction l as [|g l IH]; intros pre.
  - done.
  - rewrite imap_cons, filter_cons.
    assert (Hrest : imap ((λ i g0, ((length pre + i)%nat, g0)) ∘ S) l
                    = imap (λ i g0, ((length (pre ++ [g]) + i)%nat, g0)) l).
    { apply imap_ext. intros i x _. cbn. rewrite length_app. cbn.
      f_equal. lia. }
    rewrite Hrest. specialize (IH (pre ++ [g])).
    rewrite <- app_assoc in IH. cbn [app] in IH.
    change (donors_total itype source_az (g :: l))
      with (if is_donor itype source_az g
            then instance_count g + donors_total itype source_az l
            else donors_total itype source_az l).
    case_decide as Hd; cbn [snd] in Hd.
    + rewrite fmap_cons. cbn [fst].
      change (remaining_capacity ?gs (?r :: ?rs))
        with (match gs !! r with
              | Some g => instance_count g + remaining_capacity gs rs
              | None => remaining_capacity gs rs
              end).
      rewrite Nat.add_0_r, list_lookup_middle by done.
      rewrite IH. by destruct (is_donor itype source_az g).
    + rewrite IH. by destruct (is_donor itype source_az g).
Qed.

Lemma key_capacity_donors_total groups k :
  key_capacity groups k = donors_total k.1 k.2 groups.
Proof.
  rewrite <- (select_from_capacity k.1 k.2 groups []). done.
Qed.

(** The reservation inventory never counts more for a pair than the
    groups of the pair hold. *)
Lemma entries_total_le_donors_total groups k :
  entries_total k (group_entry <$> groups) ≤ donors_total k.1 k.2 groups.
Proof.
  destruct k as [kt ks]. cbn [fst snd].
  induction groups as [|g groups IH]; [done|].
  rewrite fmap_cons.
  change (entries_total (kt, ks) (group_entry g :: ?l))
    with (if decide ((instance_type g, availability_zone g) = (kt, ks))
          then instance_count g + entries_total (kt, ks) l
          else entries_total (kt, ks) l).
  change (donors_total kt ks (g :: groups))
    with (if is_donor kt ks g
          then instance_count g + donors_total kt ks groups
          else donors_total kt ks groups).
  destruct (is_donor kt ks g) eqn:Hd.
  - apply is_donor_spec in Hd as (Ht & Hs & Hpos).
    rewrite decide_True by congruence. lia.
  - case_decide as Hk; [|done]. injection Hk as Ht Hs.
    assert (¬ 0 < instance_count g); [|lia].
    intros Hpos. assert (is_donor kt ks g = true) by by apply is_donor_spec.
    congruence.
Qed.

Section Pipeline.

Variable modify_reserved_instances : request → string.
Variable time_time : nat → string.

Lemma riptimize_plan
    (by_account : gmap string inventory) (reserved : inventory)
    (zones processing : list string) (ri_groups : list ReservedInstance)
    (optimize : bool) :
  ∃ result conn,
    riptimize modify_reserved_instances time_time by_account reserved zones
              processing ri_groups optimize
    = Some (result, conn)
    ∧ plan result
      = greedy_distribution
          (eliminate_unsupported_zones
             (compute_ri_mistmatch reserved (aggregate_inventory by_account))
             zones).1.
Proof.
  unfold riptimize. cbv zeta.
  destruct (eliminate_unsupported_zones
              (compute_ri_mistmatch reserved (aggregate_inventory by_account))
              zones) as [clean eliminated].
  cbn [fst].
  set (live := optimize
               && negb (negb (bool_decide (length processing = 0%nat)))).
  clearbody live.
  destruct (decide (0 < length (greedy_distribution clean))%nat) as [Hlen|Hlen].
  - destruct (execute_plan_result modify_reserved_instances time_time
                ri_groups (greedy_distribution clean) live)
      as (built & _ & Hrun).
    rewrite Hrun. destruct live; simpl; eexists _, _; split; done.
  - simpl. eexists _, _. split; done.
Qed.

(** X18: a run of [riptimize] on what EC2 reports, the two requests for
    the reservation groups answered alike, aborts exactly when a zone is
    not available.  Otherwise the executor carries out the whole plan:
    the move descriptors add up to the counts of the plan, so that no
    unit is dropped, and the groups of every pair of type and zone are
    left with what they held minus what the plan takes from the pair. *)
Theorem riptimize_run_moves_whole_plan
    (get_only_instances : string * string → list Instance.t)
    (all_accounts : gmap string (string * string))
    (zones : list (string * string)) (processing : list string)
    (ri_groups : list ReservedInstance) (optimize : bool) :
  match riptimize_run modify_reserved_instances time_time get_only_instances
                      all_accounts zones processing ri_groups optimize with
  | None => Exists (λ z, z.2 ≠ "available") zones
  | Some (result, conn) =>
    Forall (λ z, z.2 = "available") zones
    ∧ all_moves (batches ri_groups (plan result)).2 = plan_total (plan result)
    ∧ ∀ k, key_capacity (batches ri_groups (plan result)).1 k
           = key_capacity ri_groups k - moved_from (plan result) k
  end.
Proof.
  unfold riptimize_run, get_ri_inventory. cbv zeta.
  rewrite available_zones_spec.
  destruct (decide (Forall (λ z, z.2 = "available") zones)) as [Hz|Hz].
  2:{ cbn [mbind option_bind].
      apply not_Forall_Exists in Hz; [|intros z; apply _].
      eapply Exists_impl; [exact Hz|]. done. }
  cbn [mbind option_bind].
  set (by_account := get_i_inventory_by_account get_only_instances all_accounts).
  set (reserved := foldl count_group ∅ ri_groups).
  destruct (riptimize_plan by_account reserved ([] ++ zones.*1) processing
              ri_groups optimize) as (result & conn & Hrun & Hplan).
  rewrite Hrun. split; [done|].
  assert (Hfit : ∀ k, moved_from (plan result) k ≤ key_capacity ri_groups k).
  { intros k. rewrite Hplan.
    etrans; [apply greedy_distribution_from_bound|].
    unfold surplus. unfold get at 1.
    rewrite clean_lookup, compute_ri_mistmatch_lookup.
    assert (Hri : get reserved k ≤ key_capacity ri_groups k).
    { unfold reserved.
      rewrite foldl_count_group, get_foldl_add_count,
        key_capacity_donors_total.
      apply entries_total_le_donors_total. }
    assert (Hdem : 0 ≤ get (aggregate_inventory by_account) k).
    { unfold aggregate_inventory, aggregate_values.
      destruct (foldl_aggregate_account (values by_account) ∅ k) as [-> _].
      unfold get at 1. rewrite lookup_empty. cbn [default].
      assert (0 ≤ total ((λ inv, get inv k) <$> values by_account)); [|lia].
      apply total_nonneg, Forall_fmap, Forall_forall. intros inv Hin.
      unfold values in Hin.
      apply list_elem_of_fmap in Hin as ([a inv'] & -> & Hin).
      apply elem_of_map_to_list in Hin. unfold by_account in Hin.
      rewrite get_i_inventory_by_account_fmap, lookup_fmap in Hin.
      destruct (all_accounts !! a) as [credentials|]; [|done].
      injection Hin as <-. apply get_account_i_inventory_nonneg. }
    pose proof (key_capacity_nonneg ri_groups k).
    set (r := get reserved k) in *.
    set (d := get (aggregate_inventory by_account) k) in *.
    clearbody r d. repeat case_decide; simpl; lia. }
  destruct (foldl_apply_action_fits (plan result) ri_groups ∅) as [Ht Hc].
  - rewrite Hplan. apply greedy_distribution_counts.
  - exact Hfit.
  - split; [|exact Hc]. unfold batches. rewrite Ht. done.
Qed.

End Pipeline.

(** ** The report file name *)

Lemma contains_append c (s1 s2 : string) :
  contains c (s1 +:+ s2) = contains c s1 || contains c s2.
Proof.
  induction s1 as [|c1 s1 IH]; [done|].
  change (String c1 s1 +:+ s2) with (String c1 (s1 +:+ s2)).
  cbn [contains]. rewrite IH. by rewrite orb_assoc.
Qed.

Lemma replace_char_removes (old new : ascii) (s : string) :
  new ≠ old → contains old (replace_char old new s) = false.
Proof.
  intros Hne. induction s as [|c s IH]; [done|].
  cbn [replace_char contains]. rewrite IH, orb_false_r.
  apply bool_decide_eq_false. by case_decide; subst.
Qed.

Lemma replace_char_keeps_out (c old new : ascii) (s : string) :
  new ≠ c → contains c s = false →
  contains c (replace_char old new s) = false.
Proof.
  intros Hne. induction s as [|c1 s IH]; [done|].
  cbn [replace_char contains]. intros [Hc1 Hs]%orb_false_elim.
  rewrite (IH Hs), orb_false_r. apply bool_decide_eq_false in Hc1.
  apply bool_decide_eq_false. by case_decide.
Qed.

Lemma replace_char_length (old new : ascii) (s : string) :
  String.length (replace_char old new s) = String.length s.
Proof.
  induction s as [|c s IH]; [done|]. cbn [replace_char String.length].
  by rewrite IH.
Qed.

(** X19: the name of the report file of the driver has neither a space
    nor a colon when the name of the region has none, whatever the time
    stamp is; it consists of the prefix, the region, an underscore, a
    string as long as the time stamp and the extension. *)
Theorem report_file_name_safe (region stamp : string) :
  contains " " region = false → contains ":" region = false →
  contains " " (report_file_name region stamp) = false
  ∧ contains ":" (report_file_name region stamp) = false
  ∧ ∃ safe, report_file_name region stamp
            = "riptimize_report_" +:+ region +:+ "_" +:+ safe +:+ ".csv"
            ∧ String.length safe = String.length stamp.
Proof.
  intros Hspace Hcolon. unfold report_file_name. cbv zeta.
  set (safe := replace_char ":" "-" (replace_char " " "_" stamp)).
  assert (Hs1 : contains " " safe = false).
  { apply replace_char_keeps_out; [done|]. by apply replace_char_removes. }
  assert (Hs2 : contains ":" safe = false)
    by by apply replace_char_removes.
  rewrite !contains_append, Hspace, Hcolon, Hs1, Hs2.
  split; [done|]. split; [done|]. exists safe. split; [done|].
  unfold safe. by rewrite !replace_char_length.
Qed.

Lemma report_file_name_safe_witness :
  contains " " (report_file_name "us-east-1" "2015-03-01 12:30:45.123456")
  = false
  ∧ contains ":" (report_file_name "us-east-1" "2015-03-01 12:30:45.123456")
    = false.
Proof.
  destruct (report_file_name_safe "us-east-1" "2015-03-01 12:30:45.123456"
              eq_refl eq_refl) as (H1 & H2 & _).
  split; [exact H1 | exact H2].
Defined.
